(** * Hubitat device events service

    A shallow embedding of
    [src/hubitat-device-events/hubitat-device-events.service.ts]: the trigger
    model, the trigger matcher, the subscription registry and the event
    router of [HubitatDeviceEventsService], followed by the properties the
    specification states about them.

    Conventions of the embedding:
    - an automation is a JavaScript object compared by reference; the registry
      holds references ([AutomationRef]) and every operation reads the object
      behind a reference from the heap it is given ([Heap]);
    - a method of the service is a computation in the monad [M]: it threads
      the service's fields together with the observable effects (callback
      invocations, console output) and may throw; a throw keeps the state
      reached so far, as a JavaScript exception does;
    - a callback of an automation is given by what it does with the event: it
      returns or it throws; it does not call back into the service while the
      event is being dispatched;
    - early [return]s inside [for] loops are written as recursive functions
      that stop at the first hit. *)

From stdpp Require Import gmap strings list fin_maps.
From Stdlib Require Import ZArith.

Local Open Scope string_scope.
#[local] Set Warnings "-clear-no-such-hyp".

(** ** Trigger model *)

(** The event delivered by the hub. *)
Module HubitatDeviceEvent.
Record t := {
  eventType : string;
  deviceId : Z;
  attributeName : string;
  newValue : string;
  previousValue : string
}.
End HubitatDeviceEvent.

(** A tagged value-change predicate; [value] is absent for ['changes']. *)
Module ChangeFilter.
Record t := {
  name : string;
  value : option string
}.
End ChangeFilter.

Module ChangeGroup.
Record t := {
  filters : list ChangeFilter.t
}.
End ChangeGroup.

Module AttributeFilter.
Record t := {
  attributeNames : list string;
  changeGroups : list ChangeGroup.t
}.
End AttributeFilter.

(** A trigger definition.  [triggerType] is the tag every trigger definition
    carries; [devices] and [attributes] are the fields the service reads after
    its unchecked cast to [HubitatDeviceTriggerDefinition]. *)
Module TriggerDefinition.
Record t := {
  triggerType : string;
  devices : list Z;
  attributes : list AttributeFilter.t
}.

(** Modelled from the spec: the getter [allAttributeNames] of the trigger
    definition class is not part of the source at hand; it is the union, across
    all attribute filters of the trigger, of each filter's attribute names. *)
Definition allAttributeNames (trigger : t) : list string :=
  remove_dups (mjoin (AttributeFilter.attributeNames <$> attributes trigger)).
End TriggerDefinition.

(** What a callback does with an event: it returns, or it throws [e]. *)
Inductive Outcome :=
  | Returns
  | Throws (e : string).

Module Automation.
Record t := {
  name : string;
  builtTriggers : list TriggerDefinition.t;
  handleEvent : HubitatDeviceEvent.t → Outcome
}.
End Automation.

(** References to automation objects, and the heap they point into. *)
Definition AutomationRef := positive.
Definition Heap := AutomationRef → Automation.t.

(** ** Helpers of the service *)

(** Modelled from the spec: the helper [all] of [common/collections-helpers]
    is not part of the source at hand; it holds iff every element satisfies
    the predicate, and so holds of the empty sequence. *)
Definition all {A} (items : list A) (predicate : A → bool) : bool :=
  forallb predicate items.

(** The string a template literal [`${v}`] produces for a string or absent
    [v]. *)
Definition template_literal (v : option string) : string :=
  match v with
  | Some s => s
  | None => "undefined"
  end.

(** Modelled from the spec: the class [SubscribersSet] of
    [common/subscribers-set] is not part of the source at hand; it is a set of
    subscribers iterated in insertion order. *)
Module SubscribersSet.
Section SubscribersSet.
Context {T : Type} `{EqDecision T}.

Definition subscribe (subscriber : T) (set : list T) : list T :=
  if decide (subscriber ∈ set) then set else set ++ [subscriber].

Definition unsubscribe (subscriber : T) (set : list T) : list T :=
  filter (λ other, other ≠ subscriber) set.

End SubscribersSet.
End SubscribersSet.

(** Modelled from the spec: the class [SubscribersMap] of
    [common/subscribers-map] is not part of the source at hand; it maps a key
    to the set of its subscribers, [getSet] answers nothing for an unknown
    key, and a key whose set became empty is left in place. *)
Module SubscribersMap.
Section SubscribersMap.
Context {K : Type} `{Countable K} {T : Type} `{EqDecision T}.

Definition subscribe (key : K) (subscriber : T) (map : gmap K (list T))
  : gmap K (list T) :=
  <[key := SubscribersSet.subscribe subscriber (default [] (map !! key))]> map.

Definition unsubscribe (key : K) (subscriber : T) (map : gmap K (list T))
  : gmap K (list T) :=
  alter (SubscribersSet.unsubscribe subscriber) key map.

Definition getSet (key : K) (map : gmap K (list T)) : option (list T) :=
  map !! key.

Definition getSubscribers (map : gmap K (list T)) : list T :=
  mjoin (map_to_list map).*2.

End SubscribersMap.
End SubscribersMap.

(** ** State and effects *)

(** The four private fields of [HubitatDeviceEventsService]. *)
Record Service := {
  subscriptionsByDeviceId : gmap Z (list AutomationRef);
  subscriptionsByAttributeName : gmap string (list AutomationRef);
  subscriptionsOfAllEvents : list AutomationRef;
  subscribedAutomations : gset AutomationRef
}.

(** The service as its constructor leaves it. *)
Definition new_Service : Service :=
  {| subscriptionsByDeviceId := ∅;
     subscriptionsByAttributeName := ∅;
     subscriptionsOfAllEvents := [];
     subscribedAutomations := ∅ |}.

(** What a method can read and change: the service object, the callbacks it
    has invoked so far (oldest first) and the lines written with
    [console.error]. *)
Record World := {
  this : Service;
  invoked : list (AutomationRef * HubitatDeviceEvent.t);
  console : list string
}.

(** How a call ends: with a value, or with a thrown [Error] of that message. *)
Inductive Completion (A : Type) :=
  | Normal (a : A)
  | Thrown (message : string).
Arguments Normal {A} a.
Arguments Thrown {A} message.

Definition M (A : Type) : Type := World → Completion A * World.

Definition ret {A} (a : A) : M A := λ w, (Normal a, w).

Definition bind {A B} (m : M A) (k : A → M B) : M B :=
  λ w, match m w with
       | (Normal a, w') => k a w'
       | (Thrown message, w') => (Thrown message, w')
       end.

Definition throw {A} (message : string) : M A := λ w, (Thrown message, w).

Declare Scope M_scope.
Delimit Scope M_scope with M.
Bind Scope M_scope with M.
Notation "'let*' x := m 'in' k" := (bind m (λ x, k))
  (at level 10, x name, m at level 100, k at level 200) : M_scope.
Notation "m >> k" := (bind m (λ _, k))
  (at level 100, k at level 200, right associativity) : M_scope.

Definition get_this : M Service := λ w, (Normal (this w), w).

Definition set_this (f : Service → Service) : M unit :=
  λ w, (Normal (), {| this := f (this w); invoked := invoked w; console := console w |}).

(** [for (const item of items) body(item)]; a throw leaves the loop. *)
Fixpoint for_of {A} (items : list A) (body : A → M unit) : M unit :=
  match items with
  | [] => ret ()
  | item :: rest => (body item >> for_of rest body)%M
  end.

(** The same loop for a body that updates a local variable of the enclosing
    function. *)
Fixpoint for_of_with {A L} (items : list A) (body : A → L → M L) (local : L) : M L :=
  match items with
  | [] => ret local
  | item :: rest => (let* local' := body item local in for_of_with rest body local')%M
  end.

(** The field updates the methods perform. *)
Definition subscribedAutomations_add (automation : AutomationRef) : M unit :=
  set_this (λ s,
    {| subscriptionsByDeviceId := subscriptionsByDeviceId s;
       subscriptionsByAttributeName := subscriptionsByAttributeName s;
       subscriptionsOfAllEvents := subscriptionsOfAllEvents s;
       subscribedAutomations := subscribedAutomations s ∪ {[automation]} |}).

Definition subscribedAutomations_assign (automations : gset AutomationRef) : M unit :=
  set_this (λ s,
    {| subscriptionsByDeviceId := subscriptionsByDeviceId s;
       subscriptionsByAttributeName := subscriptionsByAttributeName s;
       subscriptionsOfAllEvents := subscriptionsOfAllEvents s;
       subscribedAutomations := automations |}).

Definition subscriptionsOfAllEvents_update
    (f : list AutomationRef → list AutomationRef) : M unit :=
  set_this (λ s,
    {| subscriptionsByDeviceId := subscriptionsByDeviceId s;
       subscriptionsByAttributeName := subscriptionsByAttributeName s;
       subscriptionsOfAllEvents := f (subscriptionsOfAllEvents s);
       subscribedAutomations := subscribedAutomations s |}).

Definition subscriptionsByDeviceId_update
    (f : gmap Z (list AutomationRef) → gmap Z (list AutomationRef)) : M unit :=
  set_this (λ s,
    {| subscriptionsByDeviceId := f (subscriptionsByDeviceId s);
       subscriptionsByAttributeName := subscriptionsByAttributeName s;
       subscriptionsOfAllEvents := subscriptionsOfAllEvents s;
       subscribedAutomations := subscribedAutomations s |}).

Definition subscriptionsByAttributeName_update
    (f : gmap string (list AutomationRef) → gmap string (list AutomationRef)) : M unit :=
  set_this (λ s,
    {| subscriptionsByDeviceId := subscriptionsByDeviceId s;
       subscriptionsByAttributeName := f (subscriptionsByAttributeName s);
       subscriptionsOfAllEvents := subscriptionsOfAllEvents s;
       subscribedAutomations := subscribedAutomations s |}).

(** [automation.handleEvent(event)] inside [try]: the call is recorded, and
    what it threw, if anything, is handed to the [catch] clause. *)
Definition call_handleEvent (heap : Heap) (automation : AutomationRef)
    (event : HubitatDeviceEvent.t) : M Outcome :=
  λ w, (Normal (Automation.handleEvent (heap automation) event),
        {| this := this w;
           invoked := invoked w ++ [(automation, event)];
           console := console w |}).

Definition console_error (line : string) : M unit :=
  λ w, (Normal (),
        {| this := this w; invoked := invoked w; console := console w ++ [line] |}).

(** The double-quote character of the messages. *)
Definition dquote : string := String (Ascii.ascii_of_nat 34) EmptyString.

(** ** Sample data *)

(** A marker, an event printer and an empty world to evaluate the service
    on. *)
Definition sample_marker : string := "hubitat-device-event".

Definition sample_stringify (event : HubitatDeviceEvent.t) : string :=
  "{" +:+ HubitatDeviceEvent.attributeName event +:+ "}".

Definition world_with (s : Service) : World :=
  {| this := s; invoked := []; console := [] |}.

(** ** Trigger matcher *)

Section Service.

(** The marker constant [HUBITAT_DEVICE_EVENT_TYPE] of
    [hubitat-device-event.ts]; the service only compares against it. *)
Variable HUBITAT_DEVICE_EVENT_TYPE : string.

(** [JSON.stringify] on events; the service only splices its result into an
    error message. *)
Variable JSON_stringify : HubitatDeviceEvent.t → string.

Definition getCompatibleTriggers (triggerDefinitions : list TriggerDefinition.t)
  : list TriggerDefinition.t :=
  filter (λ trigger, TriggerDefinition.triggerType trigger = HUBITAT_DEVICE_EVENT_TYPE)
         triggerDefinitions.

Definition matchFilter (filter : ChangeFilter.t) (event : HubitatDeviceEvent.t) : bool :=
  let tag := ChangeFilter.name filter in
  let v := template_literal (ChangeFilter.value filter) in
  if bool_decide (tag = "changes") then true
  else if bool_decide (tag = "is") then
    bool_decide (HubitatDeviceEvent.newValue event = v)
  else if bool_decide (tag = "is-not") then
    negb (bool_decide (HubitatDeviceEvent.newValue event = v))
  else if bool_decide (tag = "was") then
    bool_decide (HubitatDeviceEvent.previousValue event = v)
  else if bool_decide (tag = "was-not") then
    negb (bool_decide (HubitatDeviceEvent.previousValue event = v))
  else false.

Fixpoint matchGroups_loop (changeGroups : list ChangeGroup.t)
    (event : HubitatDeviceEvent.t) : bool :=
  match changeGroups with
  | [] => false
  | changeGroup :: rest =>
      if all (ChangeGroup.filters changeGroup) (λ filter, matchFilter filter event)
      then true
      else matchGroups_loop rest event
  end.

Definition matchGroups (attributeFilter : AttributeFilter.t)
    (event : HubitatDeviceEvent.t) : bool :=
  matchGroups_loop (AttributeFilter.changeGroups attributeFilter) event.

Fixpoint matchAttributes_loop (attributes : list AttributeFilter.t)
    (event : HubitatDeviceEvent.t) : bool :=
  match attributes with
  | [] => false
  | attributeFilter :: rest =>
      if negb (bool_decide (HubitatDeviceEvent.attributeName event
                              ∈ AttributeFilter.attributeNames attributeFilter))
      then matchAttributes_loop rest event
      else if matchGroups attributeFilter event then true
      else matchAttributes_loop rest event
  end.

Definition matchAttributes (trigger : TriggerDefinition.t)
    (event : HubitatDeviceEvent.t) : bool :=
  matchAttributes_loop (TriggerDefinition.attributes trigger) event.

Definition matchDevice (trigger : TriggerDefinition.t)
    (event : HubitatDeviceEvent.t) : bool :=
  if negb (bool_decide (HubitatDeviceEvent.deviceId event
                          ∈ TriggerDefinition.devices trigger))
  then false
  else if bool_decide (length (TriggerDefinition.attributes trigger) = 0) then true
  else matchAttributes trigger event.

Fixpoint matchEvent_loop (triggers : list TriggerDefinition.t)
    (event : HubitatDeviceEvent.t) : bool :=
  match triggers with
  | [] => false
  | trigger :: rest =>
      if bool_decide (length (TriggerDefinition.devices trigger) = 0) then
        if bool_decide (length (TriggerDefinition.attributes trigger) = 0) then true
        else if matchAttributes trigger event then true
        else matchEvent_loop rest event
      else if matchDevice trigger event then true
      else matchEvent_loop rest event
  end.

Definition matchEvent (automation : Automation.t) (event : HubitatDeviceEvent.t) : bool :=
  matchEvent_loop (getCompatibleTriggers (Automation.builtTriggers automation)) event.

(** *** The matcher in the words of the specification *)

(** A change group matches when all of its filters do. *)
Definition spec_group_matches (g : ChangeGroup.t) (event : HubitatDeviceEvent.t) : Prop :=
  ∀ f, f ∈ ChangeGroup.filters g → matchFilter f event = true.

(** The attribute filters of a trigger match when some filter that lists the
    event's attribute name has a matching change group. *)
Definition spec_attributes_match (trigger : TriggerDefinition.t)
    (event : HubitatDeviceEvent.t) : Prop :=
  ∃ af g,
    af ∈ TriggerDefinition.attributes trigger
    ∧ HubitatDeviceEvent.attributeName event ∈ AttributeFilter.attributeNames af
    ∧ g ∈ AttributeFilter.changeGroups af
    ∧ spec_group_matches g event.

(** One trigger definition against one event. *)
Definition spec_trigger_matches (trigger : TriggerDefinition.t)
    (event : HubitatDeviceEvent.t) : Prop :=
  (TriggerDefinition.devices trigger = []
   ∧ (TriggerDefinition.attributes trigger = [] ∨ spec_attributes_match trigger event))
  ∨ (TriggerDefinition.devices trigger ≠ []
     ∧ HubitatDeviceEvent.deviceId event ∈ TriggerDefinition.devices trigger
     ∧ (TriggerDefinition.attributes trigger = [] ∨ spec_attributes_match trigger event)).

(** ** Subscription registry *)

Definition already_registered_message (automation : Automation.t) : string :=
  "The " +:+ dquote +:+ Automation.name automation +:+ dquote
    +:+ " automation is already registered. Consider unregistering first.".

(** The body of the loop over the triggers in [registerAutomation]. *)
Definition registerTrigger (automation : AutomationRef) (trigger : TriggerDefinition.t)
  : M unit :=
  (if bool_decide (length (TriggerDefinition.devices trigger) = 0)
      && bool_decide (length (TriggerDefinition.attributes trigger) = 0)
   then
     subscribedAutomations_add automation >>
     subscriptionsOfAllEvents_update (SubscribersSet.subscribe automation)
   else if bool_decide (0 < length (TriggerDefinition.devices trigger)) then
     subscribedAutomations_add automation >>
     for_of (TriggerDefinition.devices trigger) (λ deviceId,
       subscriptionsByDeviceId_update (SubscribersMap.subscribe deviceId automation))
   else if bool_decide (0 < length (TriggerDefinition.attributes trigger)) then
     subscribedAutomations_add automation >>
     for_of (TriggerDefinition.allAttributeNames trigger) (λ attributeName,
       subscriptionsByAttributeName_update
         (SubscribersMap.subscribe attributeName automation))
   else ret ())%M.

Definition registerAutomation (heap : Heap) (automation : AutomationRef) : M unit :=
  (let* self := get_this in
   if bool_decide (automation ∈ subscribedAutomations self) then
     throw (already_registered_message (heap automation))
   else
     let triggers := getCompatibleTriggers (Automation.builtTriggers (heap automation)) in
     if bool_decide (length triggers < 1) then ret ()
     else for_of triggers (registerTrigger automation))%M.

Definition recreateSubscribedAutomationsSet : M unit :=
  (let* self := get_this in
   let automations : gset AutomationRef :=
     list_to_set (subscriptionsOfAllEvents self) in
   let deviceIdAutomations :=
     SubscribersMap.getSubscribers (subscriptionsByDeviceId self) in
   let deviceAttributeNameAutomations :=
     SubscribersMap.getSubscribers (subscriptionsByAttributeName self) in
   subscribedAutomations_assign
     (list_to_set (elements automations ++ deviceIdAutomations
                     ++ deviceAttributeNameAutomations)))%M.

(** The body of the loop over the triggers in [unregisterAutomation]. *)
Definition unregisterTrigger (automation : AutomationRef) (trigger : TriggerDefinition.t)
  : M unit :=
  (if bool_decide (length (TriggerDefinition.devices trigger) = 0)
      && bool_decide (length (TriggerDefinition.attributes trigger) = 0)
   then
     subscriptionsOfAllEvents_update (SubscribersSet.unsubscribe automation)
   else if bool_decide (0 < length (TriggerDefinition.devices trigger)) then
     for_of (TriggerDefinition.devices trigger) (λ deviceId,
       subscriptionsByDeviceId_update (SubscribersMap.unsubscribe deviceId automation))
   else if bool_decide (0 < length (TriggerDefinition.attributes trigger)) then
     for_of (TriggerDefinition.allAttributeNames trigger) (λ attributeName,
       subscriptionsByAttributeName_update
         (SubscribersMap.unsubscribe attributeName automation))
   else ret ())%M.

Definition unregisterAutomation (heap : Heap) (automation : AutomationRef) : M unit :=
  (let triggers := getCompatibleTriggers (Automation.builtTriggers (heap automation)) in
   for_of triggers (unregisterTrigger automation) >>
   recreateSubscribedAutomationsSet)%M.

(** ** Event router *)

Definition callback_failed_log (automation : Automation.t) (e : string) : string :=
  "Error occurred in the " +:+ dquote +:+ Automation.name automation +:+ dquote
    +:+ " automation: " +:+ e.

Definition callback_failed_message (automation : Automation.t)
    (event : HubitatDeviceEvent.t) : string :=
  "The automation " +:+ dquote +:+ Automation.name automation +:+ dquote
    +:+ " failed to handle event: " +:+ JSON_stringify event.

(** The closure [runMatchingAutomation]; the set [unhandledAutomations] it
    captures is passed in and handed back. *)
Definition runMatchingAutomation (heap : Heap) (event : HubitatDeviceEvent.t)
    (automation : AutomationRef) (unhandledAutomations : gset AutomationRef)
  : M (gset AutomationRef) :=
  (if negb (bool_decide (automation ∈ unhandledAutomations)) then
     ret unhandledAutomations
   else if negb (matchEvent (heap automation) event) then ret unhandledAutomations
   else
     let unhandledAutomations := unhandledAutomations ∖ {[automation]} in
     let* outcome := call_handleEvent heap automation event in
     match outcome with
     | Returns => ret unhandledAutomations
     | Throws e =>
         console_error (callback_failed_log (heap automation) e) >>
         throw (callback_failed_message (heap automation) event)
     end)%M.

Definition handleEvent (heap : Heap) (event : HubitatDeviceEvent.t) : M unit :=
  (if negb (bool_decide (HubitatDeviceEvent.eventType event = HUBITAT_DEVICE_EVENT_TYPE))
   then ret ()
   else
     let* self := get_this in
     let unhandledAutomations := subscribedAutomations self in
     let* unhandledAutomations :=
       for_of_with (subscriptionsOfAllEvents self)
                   (runMatchingAutomation heap event) unhandledAutomations in
     let subscribersSetForDevices :=
       SubscribersMap.getSet (HubitatDeviceEvent.deviceId event)
                             (subscriptionsByDeviceId self) in
     let* unhandledAutomations :=
       match subscribersSetForDevices with
       | Some set =>
           for_of_with set (runMatchingAutomation heap event) unhandledAutomations
       | None => ret unhandledAutomations
       end in
     let subscribersSetForAttributeOnly :=
       SubscribersMap.getSet (HubitatDeviceEvent.attributeName event)
                             (subscriptionsByAttributeName self) in
     match subscribersSetForAttributeOnly with
     | Some set =>
         let* _ := for_of_with set (runMatchingAutomation heap event)
                               unhandledAutomations in
         ret ()
     | None => ret ()
     end)%M.

(** ** Runs of the registry *)

(** One call from outside, with the heap as it is when the call is made. *)
Inductive Call :=
  | CallRegister (heap : Heap) (automation : AutomationRef)
  | CallUnregister (heap : Heap) (automation : AutomationRef).

Definition perform (call : Call) : M unit :=
  match call with
  | CallRegister heap automation => registerAutomation heap automation
  | CallUnregister heap automation => unregisterAutomation heap automation
  end.

(** The service after a call, whether the call returned or threw. *)
Definition after {A} (m : M A) (s : Service) : Service :=
  this (m {| this := s; invoked := []; console := [] |}).2.

(** The calls of a run, one after the other; the caller goes on after a
    failed call. *)
Definition run (calls : list Call) (s : Service) : Service :=
  foldl (λ s call, after (perform call) s) s calls.

(** ** Views of the registry *)

(** The subscribers of one device id and of one attribute name; nobody for an
    unknown key. *)
Definition subscribersForDevice (deviceId : Z) (s : Service) : list AutomationRef :=
  default [] (SubscribersMap.getSet deviceId (subscriptionsByDeviceId s)).

Definition subscribersForAttribute (attributeName : string) (s : Service)
  : list AutomationRef :=
  default [] (SubscribersMap.getSet attributeName (subscriptionsByAttributeName s)).

(** The three indices joined: catch-all subscribers, subscribers of every
    device id and subscribers of every attribute name. *)
Definition indexed (s : Service) : gset AutomationRef :=
  list_to_set (subscriptionsOfAllEvents s)
  ∪ list_to_set (SubscribersMap.getSubscribers (subscriptionsByDeviceId s))
  ∪ list_to_set (SubscribersMap.getSubscribers (subscriptionsByAttributeName s)).

(** The candidate stream [handleEvent] walks for an event: the catch-all
    bucket, then the bucket of the event's device id, then the bucket of its
    attribute name. *)
Definition candidates (event : HubitatDeviceEvent.t) (s : Service) : list AutomationRef :=
  subscriptionsOfAllEvents s
  ++ subscribersForDevice (HubitatDeviceEvent.deviceId event) s
  ++ subscribersForAttribute (HubitatDeviceEvent.attributeName event) s.

(** The automations whose callback a computation invoked, in order. *)
Definition notified {A} (m : M A) (w : World) : list AutomationRef :=
  (drop (length (invoked w)) (invoked (m w).2)).*1.

(** How often an automation occurs among the notified ones. *)
Definition times (automation : AutomationRef) (log : list AutomationRef) : nat :=
  length (filter (λ other, other = automation) log).

(** ** Reasoning about computations *)

(** [m] always returns, is silent, and takes the service from [s] to some
    [s'] with [R s s']. *)
Definition transforms (m : M unit) (R : Service → Service → Prop) : Prop :=
  ∀ w,
    (m w).1 = Normal ()
    ∧ invoked (m w).2 = invoked w
    ∧ console (m w).2 = console w
    ∧ R (this w) (this (m w).2).

(** What the triggers [triggers] of an automation describe: a catch-all
    subscription, the device ids and the attribute names it is filed under. *)
Definition describes_all (triggers : list TriggerDefinition.t) : Prop :=
  ∃ t, t ∈ triggers
       ∧ TriggerDefinition.devices t = [] ∧ TriggerDefinition.attributes t = [].

Definition describes_device (triggers : list TriggerDefinition.t) (deviceId : Z) : Prop :=
  ∃ t, t ∈ triggers ∧ deviceId ∈ TriggerDefinition.devices t.

Definition describes_attribute (triggers : list TriggerDefinition.t)
    (attributeName : string) : Prop :=
  ∃ t, t ∈ triggers
       ∧ TriggerDefinition.devices t = []
       ∧ attributeName ∈ TriggerDefinition.allAttributeNames t.

(** The service after the loop of [registerAutomation] over [triggers]. *)
Definition registered (a : AutomationRef) (triggers : list TriggerDefinition.t)
    (s s' : Service) : Prop :=
  (∀ x, x ∈ subscriptionsOfAllEvents s'
        ↔ x ∈ subscriptionsOfAllEvents s ∨ (x = a ∧ describes_all triggers))
  ∧ (∀ k x, x ∈ subscribersForDevice k s'
            ↔ x ∈ subscribersForDevice k s ∨ (x = a ∧ describes_device triggers k))
  ∧ (∀ n x, x ∈ subscribersForAttribute n s'
            ↔ x ∈ subscribersForAttribute n s ∨ (x = a ∧ describes_attribute triggers n))
  ∧ (∀ x, x ∈ subscribedAutomations s'
          ↔ x ∈ subscribedAutomations s ∨ (x = a ∧ triggers ≠ [])).

(** The service after the loop of [unregisterAutomation] over [triggers]. *)
Definition unregistered (a : AutomationRef) (triggers : list TriggerDefinition.t)
    (s s' : Service) : Prop :=
  (∀ x, x ∈ subscriptionsOfAllEvents s'
        ↔ x ∈ subscriptionsOfAllEvents s ∧ ¬ (x = a ∧ describes_all triggers))
  ∧ (∀ k x, x ∈ subscribersForDevice k s'
            ↔ x ∈ subscribersForDevice k s ∧ ¬ (x = a ∧ describes_device triggers k))
  ∧ (∀ n x, x ∈ subscribersForAttribute n s'
            ↔ x ∈ subscribersForAttribute n s
              ∧ ¬ (x = a ∧ describes_attribute triggers n))
  ∧ subscribedAutomations s' = subscribedAutomations s.

(** ** The dispatch in the words of the specification *)

(** What one dispatch does: the automations it notified, in order, the
    pending set it ended with, and the automation whose callback threw
    together with what it threw, if one did. *)
Record Dispatch := {
  notifications : list AutomationRef;
  pending : gset AutomationRef;
  failure : option (AutomationRef * string)
}.

(** For each candidate of the stream, in order: skip it if it is absent from
    the pending set; else evaluate the matcher; if it matches, remove it from
    the pending set and invoke its callback; stop at the first callback that
    throws. *)
Fixpoint spec_dispatch (heap : Heap) (event : HubitatDeviceEvent.t)
    (stream : list AutomationRef) (unhandled : gset AutomationRef) : Dispatch :=
  match stream with
  | [] => {| notifications := []; pending := unhandled; failure := None |}
  | a :: rest =>
      if bool_decide (a ∈ unhandled) && matchEvent (heap a) event then
        match Automation.handleEvent (heap a) event with
        | Returns =>
            let d := spec_dispatch heap event rest (unhandled ∖ {[a]}) in
            {| notifications := a :: notifications d;
               pending := pending d;
               failure := failure d |}
        | Throws e =>
            {| notifications := [a];
               pending := unhandled ∖ {[a]};
               failure := Some (a, e) |}
        end
      else spec_dispatch heap event rest unhandled
  end.

(** How the router's call ends after such a dispatch, and the world it
    leaves. *)
Definition completion_of {A} (heap : Heap) (event : HubitatDeviceEvent.t)
    (d : Dispatch) (value : A) : Completion A :=
  match failure d with
  | None => Normal value
  | Some (b, _) => Thrown (callback_failed_message (heap b) event)
  end.

Definition world_of (heap : Heap) (event : HubitatDeviceEvent.t)
    (d : Dispatch) (w : World) : World :=
  {| this := this w;
     invoked := invoked w ++ ((λ a, (a, event)) <$> notifications d);
     console := console w ++ match failure d with
                             | None => []
                             | Some (b, e) => [callback_failed_log (heap b) e]
                             end |}.

(** ** Well-named triggers *)

(** A trigger that is filed by attribute name (no devices, some attribute
    filters) names at least one attribute. *)
Definition names_an_attribute (t : TriggerDefinition.t) : Prop :=
  TriggerDefinition.devices t = [] →
  TriggerDefinition.attributes t ≠ [] →
  TriggerDefinition.allAttributeNames t ≠ [].

Definition well_named (call : Call) : Prop :=
  match call with
  | CallRegister heap automation =>
      Forall names_an_attribute
             (getCompatibleTriggers (Automation.builtTriggers (heap automation)))
  | CallUnregister _ _ => True
  end.

(** The automation a call is about. *)
Definition call_automation (call : Call) : AutomationRef :=
  match call with
  | CallRegister _ automation => automation
  | CallUnregister _ automation => automation
  end.

(** [a] is filed in no other bucket than those [triggers] describe. *)
Definition filed_within (a : AutomationRef) (triggers : list TriggerDefinition.t)
    (s : Service) : Prop :=
  (a ∈ subscriptionsOfAllEvents s → describes_all triggers)
  ∧ (∀ k, a ∈ subscribersForDevice k s → describes_device triggers k)
  ∧ (∀ n, a ∈ subscribersForAttribute n s → describes_attribute triggers n).

(** [a] comes before [b] in the log. *)
Definition precedes (a b : AutomationRef) (log : list AutomationRef) : Prop :=
  ∃ i j, log !! i = Some a ∧ log !! j = Some b ∧ (i < j)%nat.

(** The notification order read bucket by bucket: every notified subscriber
    of an earlier bucket comes before every other notified subscriber of a
    later bucket. *)
Definition bucketwise_order (heap : Heap) (event : HubitatDeviceEvent.t) (w : World)
  : Prop :=
  let log := notified (handleEvent heap event) w in
  let catchAll := subscriptionsOfAllEvents (this w) in
  let forDevice := subscribersForDevice (HubitatDeviceEvent.deviceId event) (this w) in
  let forAttribute :=
    subscribersForAttribute (HubitatDeviceEvent.attributeName event) (this w) in
  (∀ a b, a ∈ log → b ∈ log → a ≠ b →
          a ∈ catchAll → b ∈ forDevice → precedes a b log)
  ∧ (∀ a b, a ∈ log → b ∈ log → a ≠ b →
            a ∈ forDevice → b ∈ forAttribute → precedes a b log).

(** [a] is filed in every bucket [triggers] describe. *)
Definition filed_covering (a : AutomationRef) (triggers : list TriggerDefinition.t)
    (s : Service) : Prop :=
  (describes_all triggers → a ∈ subscriptionsOfAllEvents s)
  ∧ (∀ k, describes_device triggers k → a ∈ subscribersForDevice k s)
  ∧ (∀ n, describes_attribute triggers n → a ∈ subscribersForAttribute n s).

(** The buckets of [s] and [s'] hold the same automations. *)
Definition same_members (s s' : Service) : Prop :=
  (∀ x, x ∈ subscriptionsOfAllEvents s' ↔ x ∈ subscriptionsOfAllEvents s)
  ∧ (∀ k x, x ∈ subscribersForDevice k s' ↔ x ∈ subscribersForDevice k s)
  ∧ (∀ n x, x ∈ subscribersForAttribute n s' ↔ x ∈ subscribersForAttribute n s).

(** ** Sample automations *)

(** A device-event trigger whose only attribute filter lists no attribute
    name. *)
Definition nameless_trigger : TriggerDefinition.t :=
  {| TriggerDefinition.triggerType := HUBITAT_DEVICE_EVENT_TYPE;
     TriggerDefinition.devices := [];
     TriggerDefinition.attributes :=
       [ {| AttributeFilter.attributeNames := [];
            AttributeFilter.changeGroups := [] |} ] |}.

(** A heap whose automations all carry that trigger. *)
Definition nameless_heap : Heap :=
  λ _, {| Automation.name := "A";
          Automation.builtTriggers := [nameless_trigger];
          Automation.handleEvent := λ _, Returns |}.

(** Three kinds of trigger: every device event, the events of device 5, and
    the attribute [switch] turning from off to on. *)
Definition trigger_all : TriggerDefinition.t :=
  {| TriggerDefinition.triggerType := HUBITAT_DEVICE_EVENT_TYPE;
     TriggerDefinition.devices := [];
     TriggerDefinition.attributes := [] |}.

Definition trigger_device : TriggerDefinition.t :=
  {| TriggerDefinition.triggerType := HUBITAT_DEVICE_EVENT_TYPE;
     TriggerDefinition.devices := [5%Z];
     TriggerDefinition.attributes := [] |}.

Definition trigger_switch : TriggerDefinition.t :=
  {| TriggerDefinition.triggerType := HUBITAT_DEVICE_EVENT_TYPE;
     TriggerDefinition.devices := [];
     TriggerDefinition.attributes :=
       [ {| AttributeFilter.attributeNames := ["switch"];
            AttributeFilter.changeGroups :=
              [ {| ChangeGroup.filters :=
                     [ {| ChangeFilter.name := "is"; ChangeFilter.value := Some "on" |};
                       {| ChangeFilter.name := "was"; ChangeFilter.value := Some "off" |}
                     ] |} ] |} ] |}.

(** Automation 1 subscribes to everything, 2 to device 5, 3 to the switch, 4
    to everything and to device 5; the others have no trigger.  The callback
    of 2 does what [outcome] says, the others return. *)
Definition sample_heap (outcome : Outcome) : Heap :=
  λ r,
    if bool_decide (r = 1%positive) then
      {| Automation.name := "A"; Automation.builtTriggers := [trigger_all];
         Automation.handleEvent := λ _, Returns |}
    else if bool_decide (r = 2%positive) then
      {| Automation.name := "B"; Automation.builtTriggers := [trigger_device];
         Automation.handleEvent := λ _, outcome |}
    else if bool_decide (r = 3%positive) then
      {| Automation.name := "C"; Automation.builtTriggers := [trigger_switch];
         Automation.handleEvent := λ _, Returns |}
    else if bool_decide (r = 4%positive) then
      {| Automation.name := "D"; Automation.builtTriggers := [trigger_all; trigger_device];
         Automation.handleEvent := λ _, Returns |}
    else
      {| Automation.name := "E"; Automation.builtTriggers := [];
         Automation.handleEvent := λ _, Returns |}.

(** Device 5 switching on. *)
Definition sample_event : HubitatDeviceEvent.t :=
  {| HubitatDeviceEvent.eventType := HUBITAT_DEVICE_EVENT_TYPE;
     HubitatDeviceEvent.deviceId := 5;
     HubitatDeviceEvent.attributeName := "switch";
     HubitatDeviceEvent.newValue := "on";
     HubitatDeviceEvent.previousValue := "off" |}.

(** * Properties *)

(** ** Trigger matcher *)

Lemma matchGroups_loop_true groups event :
  matchGroups_loop groups event = true
  ↔ ∃ g, g ∈ groups ∧ spec_group_matches g event.
Proof.
  unfold spec_group_matches.
  induction groups as [|g0 groups IH]; simpl.
  - split; [done|]. intros (g & Hg & _). by apply elem_of_nil in Hg.
  - unfold all.
    destruct (forallb (λ f, matchFilter f event) (ChangeGroup.filters g0)) eqn:Hall.
    + split; [intros _|done]. exists g0. split; [left|].
      intros f Hf. rewrite forallb_forall in Hall.
      apply Hall. by apply list_elem_of_In.
    + rewrite IH. split.
      * intros (g & Hg & Hm). exists g. split; [by right|done].
      * intros (g & Hg & Hm). apply elem_of_cons in Hg as [->|Hg].
        -- assert (forallb (λ f, matchFilter f event) (ChangeGroup.filters g0) = true)
             as Hall'; [|congruence].
           apply forallb_forall. intros f Hf. apply Hm. by apply list_elem_of_In.
        -- by exists g.
Qed.

Lemma matchAttributes_loop_true attributes event :
  matchAttributes_loop attributes event = true
  ↔ ∃ af g,
      af ∈ attributes
      ∧ HubitatDeviceEvent.attributeName event ∈ AttributeFilter.attributeNames af
      ∧ g ∈ AttributeFilter.changeGroups af
      ∧ spec_group_matches g event.
Proof.
  induction attributes as [|af0 attributes IH]; simpl.
  - split; [done|]. intros (af & g & Haf & _). by apply elem_of_nil in Haf.
  - case_bool_decide as Hname; simpl.
    + destruct (matchGroups af0 event) eqn:Hgroups.
      * split; [intros _|done].
        apply matchGroups_loop_true in Hgroups as (g & Hg & Hm).
        exists af0, g. by repeat split; [left|..].
      * rewrite IH. split.
        -- intros (af & g & Haf & H'). exists af, g. split; [by right|done].
        -- intros (af & g & Haf & Hn & Hg & Hm).
           apply elem_of_cons in Haf as [->|Haf]; [|by exists af, g].
           assert (matchGroups af0 event = true) as Hyes; [|congruence].
           apply matchGroups_loop_true. by exists g.
    + rewrite IH. split.
      * intros (af & g & Haf & H'). exists af, g. split; [by right|done].
      * intros (af & g & Haf & Hn & H').
        apply elem_of_cons in Haf as [->|Haf]; [done|by exists af, g].
Qed.

Lemma matchAttributes_true trigger event :
  matchAttributes trigger event = true ↔ spec_attributes_match trigger event.
Proof. apply matchAttributes_loop_true. Qed.

Lemma matchAttributes_no_filters trigger event :
  TriggerDefinition.attributes trigger = [] → matchAttributes trigger event = false.
Proof. unfold matchAttributes. by intros ->. Qed.

Lemma length_zero_nil {A} (l : list A) : length l = 0 ↔ l = [].
Proof. by destruct l. Qed.

Lemma matchEvent_step_true trigger event :
  (if bool_decide (length (TriggerDefinition.devices trigger) = 0) then
     if bool_decide (length (TriggerDefinition.attributes trigger) = 0) then true
     else matchAttributes trigger event
   else matchDevice trigger event) = true
  ↔ spec_trigger_matches trigger event.
Proof.
  unfold spec_trigger_matches, matchDevice.
  rewrite <- matchAttributes_true.
  destruct (TriggerDefinition.devices trigger) as [|d devices] eqn:Hdevices;
    destruct (TriggerDefinition.attributes trigger) as [|af attributes] eqn:Hattributes;
    simpl.
  - split; [intros _|done]. left. split; [done|by left].
  - split.
    + intros Hm. left. split; [done|by right].
    + by intros [[_ [?|?]]|[? _]].
  - case_bool_decide as Hin; simpl.
    + split; [intros _|done]. right. split; [done|]. split; [done|by left].
    + split; [done|]. by intros [[? _]|(_ & ? & _)].
  - case_bool_decide as Hin; simpl.
    + split.
      * intros Hm. right. split; [done|]. split; [done|by right].
      * by intros [[? _]|(_ & _ & [?|?])].
    + split; [done|]. by intros [[? _]|(_ & ? & _)].
Qed.

Lemma matchEvent_loop_true triggers event :
  matchEvent_loop triggers event = true
  ↔ ∃ trigger, trigger ∈ triggers ∧ spec_trigger_matches trigger event.
Proof.
  induction triggers as [|t0 triggers IH]; simpl.
  - split; [done|]. intros (t & Ht & _). by apply elem_of_nil in Ht.
  - pose proof (matchEvent_step_true t0 event) as Hstep.
    assert (∀ b : bool,
      (b = true ↔ spec_trigger_matches t0 event) →
      ((if b then true else matchEvent_loop triggers event) = true
       ↔ ∃ trigger, trigger ∈ t0 :: triggers ∧ spec_trigger_matches trigger event))
      as Hcase.
    { intros b Hb. destruct b.
      - split; [intros _|done]. exists t0. split; [left|by apply Hb].
      - rewrite IH. split.
        + intros (t & Ht & Hm). exists t. split; [by right|done].
        + intros (t & Ht & Hm). apply elem_of_cons in Ht as [->|Ht].
          * by apply Hb in Hm.
          * by exists t. }
    destruct (bool_decide (length (TriggerDefinition.devices t0) = 0));
      [destruct (bool_decide (length (TriggerDefinition.attributes t0) = 0))|];
      [|by apply Hcase..].
    split; [intros _|done]. exists t0. split; [left|by apply Hstep].
Qed.

Lemma elem_of_getCompatibleTriggers trigger triggers :
  trigger ∈ getCompatibleTriggers triggers
  ↔ trigger ∈ triggers
    ∧ TriggerDefinition.triggerType trigger = HUBITAT_DEVICE_EVENT_TYPE.
Proof.
  unfold getCompatibleTriggers. rewrite list_elem_of_filter. tauto.
Qed.

Lemma getCompatibleTriggers_none triggers :
  (∀ trigger, trigger ∈ triggers →
              TriggerDefinition.triggerType trigger ≠ HUBITAT_DEVICE_EVENT_TYPE) →
  getCompatibleTriggers triggers = [].
Proof.
  intros Hnone.
  destruct (getCompatibleTriggers triggers) as [|t rest] eqn:Hcompatible; [done|].
  assert (t ∈ getCompatibleTriggers triggers) as Ht by (rewrite Hcompatible; left).
  apply elem_of_getCompatibleTriggers in Ht as [Hin Htype].
  by destruct (Hnone t Hin).
Qed.

(** C3. Matcher semantics: [matchEvent] answers true exactly when one of the
    automation's trigger definitions has the device-event type and matches the
    event, where a definition without device restriction matches iff it has
    no attribute filters or its attribute filters match, and a definition with
    a device restriction matches iff the event's device id is listed and it
    has no attribute filters or they match; an automation none of whose
    trigger definitions has the device-event type never matches. *)
Theorem matchEvent_semantics (automation : Automation.t) (event : HubitatDeviceEvent.t) :
  (matchEvent automation event = true
   ↔ ∃ trigger,
       trigger ∈ Automation.builtTriggers automation
       ∧ TriggerDefinition.triggerType trigger = HUBITAT_DEVICE_EVENT_TYPE
       ∧ spec_trigger_matches trigger event)
  ∧ ((∀ trigger, trigger ∈ Automation.builtTriggers automation →
                 TriggerDefinition.triggerType trigger ≠ HUBITAT_DEVICE_EVENT_TYPE)
     → matchEvent automation event = false).
Proof.
  split.
  - unfold matchEvent. rewrite matchEvent_loop_true. split.
    + intros (t & [Hin Htype]%elem_of_getCompatibleTriggers & Hm). by exists t.
    + intros (t & Hin & Htype & Hm). exists t. split; [|done].
      by apply elem_of_getCompatibleTriggers.
  - intros Hnone. unfold matchEvent. by rewrite getCompatibleTriggers_none.
Qed.

(** C4. Change-filter and change-group semantics: ['changes'] always holds,
    ['is'] and ['is-not'] compare the event's new value with the filter's
    value, ['was'] and ['was-not'] compare the previous value, any other tag
    evaluates to false (the evaluation is a total function, it cannot throw);
    the groups of an attribute filter match iff one of them has all its
    filters true, and a group without filters is such a group. *)
Theorem matchFilter_semantics (event : HubitatDeviceEvent.t) :
  (∀ value, matchFilter {| ChangeFilter.name := "changes"; ChangeFilter.value := value |}
              event = true)
  ∧ (∀ v, matchFilter {| ChangeFilter.name := "is"; ChangeFilter.value := Some v |}
            event = true ↔ HubitatDeviceEvent.newValue event = v)
  ∧ (∀ v, matchFilter {| ChangeFilter.name := "is-not"; ChangeFilter.value := Some v |}
            event = true ↔ HubitatDeviceEvent.newValue event ≠ v)
  ∧ (∀ v, matchFilter {| ChangeFilter.name := "was"; ChangeFilter.value := Some v |}
            event = true ↔ HubitatDeviceEvent.previousValue event = v)
  ∧ (∀ v, matchFilter {| ChangeFilter.name := "was-not"; ChangeFilter.value := Some v |}
            event = true ↔ HubitatDeviceEvent.previousValue event ≠ v)
  ∧ (∀ tag value,
       tag ∉ ["changes"; "is"; "is-not"; "was"; "was-not"] →
       matchFilter {| ChangeFilter.name := tag; ChangeFilter.value := value |}
         event = false)
  ∧ (∀ attributeFilter,
       matchGroups attributeFilter event = true
       ↔ ∃ g, g ∈ AttributeFilter.changeGroups attributeFilter
              ∧ ∀ f, f ∈ ChangeGroup.filters g → matchFilter f event = true)
  ∧ (∀ attributeFilter g,
       g ∈ AttributeFilter.changeGroups attributeFilter →
       ChangeGroup.filters g = [] →
       matchGroups attributeFilter event = true).
Proof.
  assert (∀ P : Prop, ∀ `{Decision P}, negb (bool_decide P) = true ↔ ¬ P) as Hnegb.
  { intros P ?. rewrite negb_true_iff, bool_decide_eq_false. done. }
  repeat apply conj.
  - intros value. done.
  - intros v. unfold matchFilter; simpl. apply bool_decide_eq_true.
  - intros v. unfold matchFilter; simpl. apply Hnegb.
  - intros v. unfold matchFilter; simpl. apply bool_decide_eq_true.
  - intros v. unfold matchFilter; simpl. apply Hnegb.
  - intros tag value Htag. unfold matchFilter; simpl.
    repeat (case_bool_decide; [exfalso; apply Htag; subst tag; repeat constructor|]).
    done.
  - intros attributeFilter. apply matchGroups_loop_true.
  - intros attributeFilter g Hg Hnil. apply matchGroups_loop_true.
    exists g. split; [done|].
    intros f Hf. rewrite Hnil in Hf. by apply elem_of_nil in Hf.
Qed.

(** ** Subscriber sets and maps *)

Section Containers.
Context {K : Type} `{Countable K} {T : Type} `{EqDecision T}.
Implicit Types (m : gmap K (list T)) (set : list T).

Lemma elem_of_subscribe x a set :
  x ∈ SubscribersSet.subscribe a set ↔ x ∈ set ∨ x = a.
Proof.
  unfold SubscribersSet.subscribe. case_decide as Hin.
  - split; [by left|]. by intros [?| ->].
  - rewrite elem_of_app, list_elem_of_singleton. done.
Qed.

Lemma elem_of_unsubscribe x a set :
  x ∈ SubscribersSet.unsubscribe a set ↔ x ∈ set ∧ x ≠ a.
Proof.
  unfold SubscribersSet.unsubscribe. rewrite list_elem_of_filter. tauto.
Qed.

Lemma subscribe_NoDup a set : NoDup set → NoDup (SubscribersSet.subscribe a set).
Proof.
  intros Hset. unfold SubscribersSet.subscribe. case_decide as Hin; [done|].
  apply NoDup_app. split; [done|]. split; [|apply NoDup_singleton].
  intros x Hx ->%list_elem_of_singleton. done.
Qed.

Lemma bucket_subscribe k a m k' x :
  x ∈ default [] (SubscribersMap.subscribe k a m !! k')
  ↔ x ∈ default [] (m !! k') ∨ (k' = k ∧ x = a).
Proof.
  unfold SubscribersMap.subscribe.
  destruct (decide (k = k')) as [->|Hne].
  - rewrite lookup_insert_eq. simpl. rewrite elem_of_subscribe. tauto.
  - rewrite lookup_insert_ne by done. split; [by left|].
    intros [?|[-> _]]; done.
Qed.

Lemma bucket_unsubscribe k a m k' x :
  x ∈ default [] (SubscribersMap.unsubscribe k a m !! k')
  ↔ x ∈ default [] (m !! k') ∧ ¬ (k' = k ∧ x = a).
Proof.
  unfold SubscribersMap.unsubscribe.
  destruct (decide (k = k')) as [->|Hne].
  - rewrite lookup_alter_eq. destruct (m !! k') as [set|]; simpl.
    + rewrite elem_of_unsubscribe. tauto.
    + split; [by intros ?%elem_of_nil|by intros [?%elem_of_nil _]].
  - rewrite lookup_alter_ne by done. split; [|tauto].
    intros Hx. split; [done|]. by intros [-> _].
Qed.

Lemma bucket_subscribe_all keys a m k' x :
  x ∈ default [] (foldl (λ m k, SubscribersMap.subscribe k a m) m keys !! k')
  ↔ x ∈ default [] (m !! k') ∨ (k' ∈ keys ∧ x = a).
Proof.
  revert m. induction keys as [|k keys IH]; intros m; simpl.
  - split; [by left|]. by intros [?|[?%elem_of_nil _]].
  - rewrite IH, bucket_subscribe, elem_of_cons. naive_solver.
Qed.

Lemma bucket_unsubscribe_all keys a m k' x :
  x ∈ default [] (foldl (λ m k, SubscribersMap.unsubscribe k a m) m keys !! k')
  ↔ x ∈ default [] (m !! k') ∧ ¬ (k' ∈ keys ∧ x = a).
Proof.
  revert m. induction keys as [|k keys IH]; intros m; simpl.
  - split; [|tauto]. intros Hx. split; [done|]. by intros [?%elem_of_nil _].
  - rewrite IH, bucket_unsubscribe, elem_of_cons. naive_solver.
Qed.

Lemma elem_of_getSubscribers x m :
  x ∈ SubscribersMap.getSubscribers m ↔ ∃ k, x ∈ default [] (m !! k).
Proof.
  unfold SubscribersMap.getSubscribers. rewrite list_elem_of_join. split.
  - intros (set & Hx & Hset).
    apply list_elem_of_fmap in Hset as ([k set'] & -> & Hk).
    apply elem_of_map_to_list in Hk. exists k. by rewrite Hk.
  - intros (k & Hx). destruct (m !! k) as [set|] eqn:Hk; simpl in Hx.
    + exists set. split; [done|]. apply list_elem_of_fmap.
      exists (k, set). split; [done|]. by apply elem_of_map_to_list.
    + by apply elem_of_nil in Hx.
Qed.

End Containers.

(** ** Computations that only update the service *)

Lemma transforms_ret (R : Service → Service → Prop) :
  (∀ s, R s s) → transforms (ret ()) R.
Proof. intros HR w. simpl. auto. Qed.

Lemma transforms_set_this f (R : Service → Service → Prop) :
  (∀ s, R s (f s)) → transforms (set_this f) R.
Proof. intros HR w. simpl. auto. Qed.

Lemma transforms_set_this_eq f : transforms (set_this f) (λ s s', s' = f s).
Proof. by apply transforms_set_this. Qed.

Lemma transforms_bind m1 m2 (R1 R2 R : Service → Service → Prop) :
  transforms m1 R1 →
  transforms m2 R2 →
  (∀ s s1 s2, R1 s s1 → R2 s1 s2 → R s s2) →
  transforms (m1 >> m2)%M R.
Proof.
  intros H1 H2 HR w. unfold bind.
  destruct (H1 w) as (Hres1 & Hinv1 & Hcon1 & HR1).
  destruct (m1 w) as [[[]|message] w1]; simpl in *; [|done].
  destruct (H2 w1) as (Hres2 & Hinv2 & Hcon2 & HR2).
  repeat split; [done|congruence|congruence|eauto].
Qed.

Lemma transforms_weaken m (R R' : Service → Service → Prop) :
  transforms m R → (∀ s s', R s s' → R' s s') → transforms m R'.
Proof.
  intros Hm HR w. destruct (Hm w) as (? & ? & ? & ?). auto.
Qed.

Lemma transforms_for_of {A} (items : list A) (body : A → M unit)
    (R : list A → Service → Service → Prop) :
  (∀ s, R [] s s) →
  (∀ x rest, ∃ Rx, transforms (body x) Rx
                   ∧ ∀ s s1 s2, Rx s s1 → R rest s1 s2 → R (x :: rest) s s2) →
  transforms (for_of items body) (R items).
Proof.
  intros Hnil Hcons. induction items as [|x rest IH]; simpl.
  - by apply transforms_ret.
  - destruct (Hcons x rest) as (Rx & Hx & Hstep).
    by eapply transforms_bind.
Qed.

Lemma for_of_set_this {A} (items : list A) (g : A → Service → Service) :
  transforms (for_of items (λ x, set_this (g x)))
             (λ s s', s' = foldl (λ s x, g x s) s items).
Proof.
  induction items as [|x rest IH]; simpl.
  - by apply transforms_ret.
  - eapply transforms_bind; [|exact IH|].
    + apply transforms_set_this_eq.
    + by intros s s1 s2 -> ->.
Qed.

(** The loops of [registerTrigger] and [unregisterTrigger] over the keys of a
    trigger fold the subscription into the map. *)
Lemma for_of_subscriptionsByDeviceId_update (keys : list Z)
    (f : Z → gmap Z (list AutomationRef) → gmap Z (list AutomationRef)) :
  transforms
    (for_of keys (λ key, subscriptionsByDeviceId_update (f key)))
    (λ s s', s' = {| subscriptionsByDeviceId :=
                       foldl (λ m key, f key m) (subscriptionsByDeviceId s) keys;
                     subscriptionsByAttributeName := subscriptionsByAttributeName s;
                     subscriptionsOfAllEvents := subscriptionsOfAllEvents s;
                     subscribedAutomations := subscribedAutomations s |}).
Proof.
  eapply transforms_weaken; [apply for_of_set_this|].
  intros s s' ->. revert s. induction keys as [|key rest IH]; intros s; simpl.
  - by destruct s.
  - by rewrite IH.
Qed.

Lemma for_of_subscriptionsByAttributeName_update (keys : list string)
    (f : string → gmap string (list AutomationRef) → gmap string (list AutomationRef)) :
  transforms
    (for_of keys (λ key, subscriptionsByAttributeName_update (f key)))
    (λ s s', s' = {| subscriptionsByDeviceId := subscriptionsByDeviceId s;
                     subscriptionsByAttributeName :=
                       foldl (λ m key, f key m) (subscriptionsByAttributeName s) keys;
                     subscriptionsOfAllEvents := subscriptionsOfAllEvents s;
                     subscribedAutomations := subscribedAutomations s |}).
Proof.
  eapply transforms_weaken; [apply for_of_set_this|].
  intros s s' ->. revert s. induction keys as [|key rest IH]; intros s; simpl.
  - by destruct s.
  - by rewrite IH.
Qed.

(** ** What the triggers describe *)

Lemma allAttributeNames_no_filters t :
  TriggerDefinition.attributes t = [] → TriggerDefinition.allAttributeNames t = [].
Proof. unfold TriggerDefinition.allAttributeNames. by intros ->. Qed.

Lemma describes_all_cons t ts :
  describes_all (t :: ts)
  ↔ (TriggerDefinition.devices t = [] ∧ TriggerDefinition.attributes t = [])
    ∨ describes_all ts.
Proof.
  unfold describes_all. split.
  - intros (t' & [->|Hin]%elem_of_cons & Ht'); [by left|right; by exists t'].
  - intros [Ht|(t' & Hin & Ht')]; [exists t|exists t']; split; try done.
    + left.
    + by right.
Qed.

Lemma describes_device_cons t ts k :
  describes_device (t :: ts) k
  ↔ k ∈ TriggerDefinition.devices t ∨ describes_device ts k.
Proof.
  unfold describes_device. split.
  - intros (t' & [->|Hin]%elem_of_cons & Ht'); [by left|right; by exists t'].
  - intros [Ht|(t' & Hin & Ht')]; [exists t|exists t']; split; try done.
    + left.
    + by right.
Qed.

Lemma describes_attribute_cons t ts n :
  describes_attribute (t :: ts) n
  ↔ (TriggerDefinition.devices t = [] ∧ n ∈ TriggerDefinition.allAttributeNames t)
    ∨ describes_attribute ts n.
Proof.
  unfold describes_attribute. split.
  - intros (t' & [->|Hin]%elem_of_cons & Ht'); [by left|right; by exists t'].
  - intros [Ht|(t' & Hin & Ht')]; [exists t|exists t']; split; try done.
    + left.
    + by right.
Qed.

Lemma describes_all_nil : ¬ describes_all [].
Proof. by intros (t & ?%elem_of_nil & _). Qed.

Lemma describes_device_nil k : ¬ describes_device [] k.
Proof. by intros (t & ?%elem_of_nil & _). Qed.

Lemma describes_attribute_nil n : ¬ describes_attribute [] n.
Proof. by intros (t & ?%elem_of_nil & _). Qed.

(** ** The loops of the registry *)

Ltac described_simpl :=
  unfold subscribersForDevice, subscribersForAttribute, SubscribersMap.getSet;
  simpl;
  repeat setoid_rewrite describes_all_cons;
  repeat setoid_rewrite describes_device_cons;
  repeat setoid_rewrite describes_attribute_cons;
  pose proof describes_all_nil;
  pose proof describes_device_nil;
  pose proof describes_attribute_nil.

Lemma length_tests_nil {A} (l : list A) :
  l = [] → bool_decide (length l = 0) = true ∧ bool_decide (0 < length l) = false.
Proof. by intros ->. Qed.

Lemma length_tests_cons {A} (l : list A) :
  l ≠ [] → bool_decide (length l = 0) = false ∧ bool_decide (0 < length l) = true.
Proof.
  destruct l; [done|]. intros _. split.
  - by apply bool_decide_eq_false_2.
  - apply bool_decide_eq_true_2. simpl. lia.
Qed.

Ltac length_tests H :=
  lazymatch type of H with
  | _ = [] =>
      rewrite ?(proj1 (length_tests_nil _ H)), ?(proj2 (length_tests_nil _ H))
  | _ =>
      rewrite ?(proj1 (length_tests_cons _ H)), ?(proj2 (length_tests_cons _ H))
  end;
  simpl.

Lemma registerTrigger_registered a t :
  transforms (registerTrigger a t) (registered a [t]).
Proof.
  unfold registerTrigger.
  destruct (decide (TriggerDefinition.devices t = [])) as [Hd|Hd];
    destruct (decide (TriggerDefinition.attributes t = [])) as [Ha|Ha];
    length_tests Hd; length_tests Ha;
    (eapply transforms_bind;
       [apply transforms_set_this_eq
       |first [apply transforms_set_this_eq
              |apply for_of_subscriptionsByDeviceId_update
              |apply for_of_subscriptionsByAttributeName_update]
       |]);
    intros s s1 s2 -> ->; unfold registered; described_simpl;
    try (rewrite (allAttributeNames_no_filters t Ha));
    repeat split; intros;
    rewrite ?elem_of_subscribe, ?bucket_subscribe_all, ?elem_of_union,
      ?elem_of_singleton in *;
    try rewrite Hd in *; try setoid_rewrite elem_of_nil;
    repeat match goal with
           | H : context [_ ∈ []] |- _ => setoid_rewrite elem_of_nil in H
           end;
    naive_solver.
Qed.

Lemma unregisterTrigger_unregistered a t :
  transforms (unregisterTrigger a t) (unregistered a [t]).
Proof.
  unfold unregisterTrigger.
  destruct (decide (TriggerDefinition.devices t = [])) as [Hd|Hd];
    destruct (decide (TriggerDefinition.attributes t = [])) as [Ha|Ha];
    length_tests Hd; length_tests Ha;
    (eapply transforms_weaken;
       [first [apply transforms_set_this_eq
              |apply for_of_subscriptionsByDeviceId_update
              |apply for_of_subscriptionsByAttributeName_update]
       |]);
    intros s s' ->; unfold unregistered; described_simpl;
    try (rewrite (allAttributeNames_no_filters t Ha));
    repeat split; intros;
    rewrite ?elem_of_unsubscribe, ?bucket_unsubscribe_all in *;
    try rewrite Hd in *; try setoid_rewrite elem_of_nil;
    repeat match goal with
           | H : context [_ ∈ []] |- _ => setoid_rewrite elem_of_nil in H
           end;
    naive_solver.
Qed.

Lemma registered_nil a s : registered a [] s s.
Proof.
  unfold registered. described_simpl. naive_solver.
Qed.

Lemma registered_cons a t ts s s1 s2 :
  registered a [t] s s1 → registered a ts s1 s2 → registered a (t :: ts) s s2.
Proof.
  unfold registered. described_simpl.
  intros (Hall1 & Hdev1 & Hattr1 & Hsub1) (Hall2 & Hdev2 & Hattr2 & Hsub2).
  repeat split; intros;
    rewrite ?Hall2, ?Hdev2, ?Hattr2, ?Hsub2, ?Hall1, ?Hdev1, ?Hattr1, ?Hsub1 in *;
    naive_solver.
Qed.

Lemma unregistered_nil a s : unregistered a [] s s.
Proof.
  unfold unregistered. described_simpl. naive_solver.
Qed.

Lemma unregistered_cons a t ts s s1 s2 :
  unregistered a [t] s s1 → unregistered a ts s1 s2 → unregistered a (t :: ts) s s2.
Proof.
  unfold unregistered. described_simpl.
  intros (Hall1 & Hdev1 & Hattr1 & Hsub1) (Hall2 & Hdev2 & Hattr2 & Hsub2).
  repeat split; intros;
    rewrite ?Hall2, ?Hdev2, ?Hattr2, ?Hsub2, ?Hall1, ?Hdev1, ?Hattr1, ?Hsub1 in *;
    naive_solver.
Qed.

Lemma for_of_registerTrigger a triggers :
  transforms (for_of triggers (registerTrigger a)) (registered a triggers).
Proof.
  apply (transforms_for_of triggers _ (registered a)).
  - apply registered_nil.
  - intros t rest. exists (registered a [t]). split.
    + apply registerTrigger_registered.
    + apply registered_cons.
Qed.

Lemma for_of_unregisterTrigger a triggers :
  transforms (for_of triggers (unregisterTrigger a)) (unregistered a triggers).
Proof.
  apply (transforms_for_of triggers _ (unregistered a)).
  - apply unregistered_nil.
  - intros t rest. exists (unregistered a [t]). split.
    + apply unregisterTrigger_unregistered.
    + apply unregistered_cons.
Qed.

(** ** The indices joined *)

Lemma elem_of_indexed x s :
  x ∈ indexed s
  ↔ x ∈ subscriptionsOfAllEvents s
    ∨ (∃ k, x ∈ subscribersForDevice k s)
    ∨ (∃ n, x ∈ subscribersForAttribute n s).
Proof.
  unfold indexed, subscribersForDevice, subscribersForAttribute, SubscribersMap.getSet.
  rewrite !elem_of_union, !elem_of_list_to_set, !elem_of_getSubscribers. tauto.
Qed.

Lemma recreateSubscribedAutomationsSet_indexed :
  transforms recreateSubscribedAutomationsSet
    (λ s s', s' = {| subscriptionsByDeviceId := subscriptionsByDeviceId s;
                     subscriptionsByAttributeName := subscriptionsByAttributeName s;
                     subscriptionsOfAllEvents := subscriptionsOfAllEvents s;
                     subscribedAutomations := indexed s |}).
Proof.
  intros w. unfold recreateSubscribedAutomationsSet, indexed. simpl.
  repeat split. f_equal.
  rewrite !list_to_set_app_L, list_to_set_elements_L. by rewrite (assoc_L (∪)).
Qed.

(** ** The methods of the registry *)

Lemma registerAutomation_new heap a w :
  a ∉ subscribedAutomations (this w) →
  (registerAutomation heap a w).1 = Normal ()
  ∧ invoked (registerAutomation heap a w).2 = invoked w
  ∧ console (registerAutomation heap a w).2 = console w
  ∧ registered a (getCompatibleTriggers (Automation.builtTriggers (heap a)))
               (this w) (this (registerAutomation heap a w).2).
Proof.
  intros Hnew. unfold registerAutomation, bind, get_this.
  rewrite bool_decide_eq_false_2 by done.
  destruct (getCompatibleTriggers (Automation.builtTriggers (heap a)))
    as [|t triggers] eqn:Htriggers.
  - simpl. do 3 (split; [done|]). apply registered_nil.
  - rewrite bool_decide_eq_false_2 by (simpl; lia).
    apply for_of_registerTrigger.
Qed.

Lemma registerAutomation_known heap a w :
  a ∈ subscribedAutomations (this w) →
  registerAutomation heap a w = (Thrown (already_registered_message (heap a)), w).
Proof.
  intros Hknown. unfold registerAutomation, bind, get_this.
  by rewrite bool_decide_eq_true_2.
Qed.

Lemma unregisterAutomation_unregistered heap a :
  transforms (unregisterAutomation heap a)
    (λ s s',
       (∃ s1, unregistered a (getCompatibleTriggers (Automation.builtTriggers (heap a)))
                           s s1
              ∧ subscriptionsOfAllEvents s' = subscriptionsOfAllEvents s1
              ∧ subscriptionsByDeviceId s' = subscriptionsByDeviceId s1
              ∧ subscriptionsByAttributeName s' = subscriptionsByAttributeName s1)
       ∧ subscribedAutomations s' = indexed s').
Proof.
  unfold unregisterAutomation.
  eapply transforms_bind;
    [apply for_of_unregisterTrigger|apply recreateSubscribedAutomationsSet_indexed|].
  intros s s1 s2 Hun ->. split; [by exists s1|done].
Qed.

(** The indices never hold an automation the subscribed set lacks. *)
Lemma perform_indexed_subseteq call s :
  indexed s ⊆ subscribedAutomations s →
  indexed (after (perform call) s) ⊆ subscribedAutomations (after (perform call) s).
Proof.
  intros Hinv. unfold after.
  set (w := {| this := s; invoked := []; console := [] |}).
  destruct call as [heap a|heap a]; simpl.
  - destruct (decide (a ∈ subscribedAutomations s)) as [Hknown|Hnew].
    + by rewrite registerAutomation_known.
    + destruct (registerAutomation_new heap a w Hnew)
        as (_ & _ & _ & Hall & Hdev & Hattr & Hsub).
      set (s' := this (registerAutomation heap a w).2) in *.
      change (this w) with s in *.
      intros x. rewrite elem_of_indexed, Hsub.
      setoid_rewrite Hall. setoid_rewrite Hdev. setoid_rewrite Hattr.
      pose proof (Hinv x) as Hx. rewrite elem_of_indexed in Hx.
      unfold describes_all, describes_device, describes_attribute.
      intros [[?|[-> (t & Ht & _)]]|[(k & [?|[-> (t & Ht & _)]])
                                    |(n & [?|[-> (t & Ht & _)]])]];
        try (left; apply Hx; eauto; fail);
        right; (split; [done|]); intros Hnil; rewrite Hnil in Ht;
        by apply elem_of_nil in Ht.
  - destruct (unregisterAutomation_unregistered heap a w) as (_ & _ & _ & _ & ->).
    done.
Qed.

Lemma run_snoc calls call s :
  run (calls ++ [call]) s = after (perform call) (run calls s).
Proof. unfold run. by rewrite foldl_snoc. Qed.

Lemma run_indexed_subseteq calls :
  indexed (run calls new_Service) ⊆ subscribedAutomations (run calls new_Service).
Proof.
  induction calls as [|call calls IH] using rev_ind.
  - done.
  - rewrite run_snoc. by apply perform_indexed_subseteq.
Qed.

(** ** The union invariant *)

Lemma well_named_described triggers :
  Forall names_an_attribute triggers →
  triggers ≠ [] →
  describes_all triggers
  ∨ (∃ k, describes_device triggers k)
  ∨ (∃ n, describes_attribute triggers n).
Proof.
  destruct triggers as [|t triggers]; [done|].
  intros Hnamed _. apply Forall_cons in Hnamed as [Ht _].
  destruct (TriggerDefinition.devices t) as [|d devices] eqn:Hd.
  - destruct (TriggerDefinition.attributes t) as [|af attributes] eqn:Ha.
    + left. exists t. split; [left|done].
    + right. right.
      destruct (TriggerDefinition.allAttributeNames t) as [|n names] eqn:Hn.
      * exfalso. apply Ht; [done|by rewrite Ha|done].
      * exists n, t. split; [left|]. split; [done|]. rewrite Hn. left.
  - right. left. exists d, t. split; [left|]. rewrite Hd. left.
Qed.

Lemma described_nonempty triggers :
  describes_all triggers
  ∨ (∃ k, describes_device triggers k)
  ∨ (∃ n, describes_attribute triggers n) →
  triggers ≠ [].
Proof.
  intros [(t & Ht & _)|[(k & t & Ht & _)|(n & t & Ht & _)]] ->;
    by apply elem_of_nil in Ht.
Qed.

Lemma perform_union_invariant call s :
  well_named call →
  subscribedAutomations s = indexed s →
  subscribedAutomations (after (perform call) s) = indexed (after (perform call) s).
Proof.
  intros Hnamed Hinv. unfold after.
  set (w := {| this := s; invoked := []; console := [] |}).
  destruct call as [heap a|heap a]; simpl in *.
  - destruct (decide (a ∈ subscribedAutomations s)) as [Hknown|Hnew].
    + by rewrite registerAutomation_known.
    + destruct (registerAutomation_new heap a w Hnew)
        as (_ & _ & _ & Hall & Hdev & Hattr & Hsub).
      set (s' := this (registerAutomation heap a w).2) in *.
      change (this w) with s in *.
      pose proof (well_named_described _ Hnamed) as Hsome.
      pose proof (described_nonempty
                    (getCompatibleTriggers (Automation.builtTriggers (heap a))))
        as Hnonempty.
      apply set_eq. intros x. rewrite elem_of_indexed, Hsub, Hinv, elem_of_indexed.
      setoid_rewrite Hall. setoid_rewrite Hdev. setoid_rewrite Hattr.
      split.
      * intros [[?|[(k & ?)|(n & ?)]]|[-> Hne]]; [naive_solver..|].
        destruct (Hsome Hne) as [?|[(k & ?)|(n & ?)]]; naive_solver.
      * naive_solver.
  - by destruct (unregisterAutomation_unregistered heap a w) as (_ & _ & _ & _ & ->).
Qed.

(** X15. The union invariant holds along every run in which every registered
    trigger that is filed by attribute name names at least one attribute: the
    subscribed set is then the union of the three indices. *)
Lemma run_union_invariant calls :
  Forall well_named calls →
  subscribedAutomations (run calls new_Service) = indexed (run calls new_Service).
Proof.
  induction calls as [|call calls IH] using rev_ind; intros Hnamed.
  - apply set_eq. intros x. rewrite elem_of_indexed. simpl.
    unfold subscribersForDevice, subscribersForAttribute, SubscribersMap.getSet; simpl.
    setoid_rewrite lookup_empty. simpl. setoid_rewrite elem_of_nil. set_solver.
  - apply Forall_app in Hnamed as [Hcalls Hcall]. apply Forall_cons in Hcall as [Hcall _].
    rewrite run_snoc. apply perform_union_invariant; auto.
Qed.

(** C1. Union invariant, at the input that breaks it: registering an
    automation whose only device-event trigger has no devices and one
    attribute filter without attribute names puts the automation into the
    subscribed set and into none of the three indices, so the subscribed set
    is not the union of the indices after this run. *)
Theorem union_invariant_nameless_trigger :
  let s := run [CallRegister nameless_heap 1%positive] new_Service in
  subscribedAutomations s = {[ 1%positive ]}
  ∧ indexed s = ∅
  ∧ subscribedAutomations s ≠ indexed s.
Proof.
  assert (getCompatibleTriggers (Automation.builtTriggers (nameless_heap 1%positive))
          = [nameless_trigger]) as Htriggers.
  { unfold getCompatibleTriggers. simpl. rewrite filter_cons_True by done. done. }
  simpl. unfold after.
  set (w := {| this := new_Service; invoked := []; console := [] |}).
  destruct (registerAutomation_new nameless_heap 1%positive w)
    as (_ & _ & _ & Hall & Hdev & Hattr & Hsub); [set_solver|].
  simpl. set (s' := this (registerAutomation nameless_heap 1%positive w).2) in *.
  rewrite Htriggers in *.
  assert (subscribedAutomations s' = {[ 1%positive ]}) as Hsubscribed.
  { apply set_eq. intros x. rewrite Hsub. simpl. set_solver. }
  assert (indexed s' = ∅) as Hindexed.
  { apply set_eq. intros x. rewrite elem_of_indexed.
    setoid_rewrite Hall. setoid_rewrite Hdev. setoid_rewrite Hattr. simpl.
    unfold subscribersForDevice, subscribersForAttribute, SubscribersMap.getSet; simpl.
    setoid_rewrite lookup_empty. simpl.
    unfold describes_all, describes_device, describes_attribute.
    setoid_rewrite list_elem_of_singleton. setoid_rewrite elem_of_nil.
    split; [|set_solver].
    intros [[[]|[_ (t & -> & _ & Ha)]]|[(k & [[]|[_ (t & -> & Hk)]])
                                       |(n & [[]|[_ (t & -> & _ & Hn)]])]];
      [done|by apply elem_of_nil in Hk|by apply elem_of_nil in Hn]. }
  split; [done|]. split; [done|].
  rewrite Hsubscribed, Hindexed. set_solver.
Qed.

(** C7. Double-register rejection: registering an automation that is in the
    subscribed set throws the already-registered error and leaves the three
    indices, the subscribed set and everything else as they were. *)
Theorem registerAutomation_twice_rejected heap automation w :
  automation ∈ subscribedAutomations (this w) →
  registerAutomation heap automation w
  = (Thrown (already_registered_message (heap automation)), w).
Proof. apply registerAutomation_known. Qed.

(** Registering an automation without compatible triggers changes nothing, so
    the automation does not enter the subscribed set; when it was not
    subscribed before, the call returns, and so does a second call. *)
Theorem registerAutomation_without_device_triggers heap automation w :
  getCompatibleTriggers (Automation.builtTriggers (heap automation)) = [] →
  (registerAutomation heap automation w).2 = w
  ∧ (automation ∉ subscribedAutomations (this w) →
     registerAutomation heap automation w = (Normal (), w)
     ∧ (automation ∉ subscribedAutomations (this (registerAutomation heap automation w).2))
     ∧ registerAutomation heap automation (registerAutomation heap automation w).2
       = (Normal (), w)).
Proof.
  intros Hnone.
  assert (automation ∉ subscribedAutomations (this w) →
          registerAutomation heap automation w = (Normal (), w)) as Hnew.
  { intros Hnew. unfold registerAutomation, bind, get_this.
    rewrite bool_decide_eq_false_2 by done. by rewrite Hnone. }
  split.
  - destruct (decide (automation ∈ subscribedAutomations (this w))) as [Hknown|Hfresh].
    + by rewrite registerAutomation_known.
    + by rewrite Hnew.
  - intros Hfresh. rewrite !Hnew; auto.
    all: by rewrite Hnew.
Qed.

(** C10, at the input that breaks it: the double-registration error also
    guards an automation that was added to no index.  The automation whose
    only device-event trigger has no devices and one attribute filter without
    attribute names is registered on the new service: the call returns and
    files the automation in none of the three indices; the second
    registration throws the already-registered error. *)
Theorem double_registration_guards_unindexed :
  let w := world_with new_Service in
  let w1 := (registerAutomation nameless_heap 1%positive w).2 in
  (registerAutomation nameless_heap 1%positive w).1 = Normal ()
  ∧ indexed (this w1) = ∅
  ∧ registerAutomation nameless_heap 1%positive w1
    = (Thrown ("The " +:+ dquote +:+ "A" +:+ dquote
                 +:+ " automation is already registered. Consider unregistering first."),
       w1).
Proof.
  intros w w1.
  assert (getCompatibleTriggers (Automation.builtTriggers (nameless_heap 1%positive))
          = [nameless_trigger]) as Htriggers.
  { unfold getCompatibleTriggers. simpl. rewrite filter_cons_True by done. done. }
  destruct (registerAutomation_new nameless_heap 1%positive w)
    as (Hnormal & _ & _ & Hall & Hdev & Hattr & Hsub); [set_solver|].
  fold w1 in Hall, Hdev, Hattr, Hsub. rewrite Htriggers in *.
  split; [done|]. split.
  - apply set_eq. intros x. rewrite elem_of_indexed.
    setoid_rewrite Hall. setoid_rewrite Hdev. setoid_rewrite Hattr. simpl.
    unfold subscribersForDevice, subscribersForAttribute, SubscribersMap.getSet; simpl.
    setoid_rewrite lookup_empty. simpl.
    unfold describes_all, describes_device, describes_attribute.
    setoid_rewrite list_elem_of_singleton. setoid_rewrite elem_of_nil.
    split; [|set_solver].
    intros [[[]|[_ (t & -> & _ & Ha)]]|[(k & [[]|[_ (t & -> & Hk)]])
                                       |(n & [[]|[_ (t & -> & _ & Hn)]])]];
      [done|by apply elem_of_nil in Hk|by apply elem_of_nil in Hn].
  - apply registerAutomation_known. apply Hsub. right. done.
Qed.

(** C9. Irrelevant-event no-op: for an event whose type is not the
    device-event marker [handleEvent] returns without error, invokes no
    callback and leaves the registry, and everything else, unchanged. *)
Theorem handleEvent_irrelevant heap event w :
  HubitatDeviceEvent.eventType event ≠ HUBITAT_DEVICE_EVENT_TYPE →
  handleEvent heap event w = (Normal (), w)
  ∧ notified (handleEvent heap event) w = [].
Proof.
  intros Hother.
  assert (handleEvent heap event w = (Normal (), w)) as Hnoop.
  { unfold handleEvent. by rewrite bool_decide_eq_false_2. }
  split; [done|]. unfold notified. rewrite Hnoop. simpl. by rewrite drop_all.
Qed.

(** ** The dispatch *)

Section Dispatch.
Variables (heap : Heap) (event : HubitatDeviceEvent.t).

Local Abbreviation dispatch := (spec_dispatch heap event).
Local Abbreviation matches a := (matchEvent (heap a) event = true).

Ltac dispatch_step a P :=
  simpl;
  destruct (bool_decide (a ∈ P) && matchEvent (heap a) event) eqn:Hpick;
  [apply andb_true_iff in Hpick as [Hin%bool_decide_eq_true Hmatch];
   destruct (Automation.handleEvent (heap a) event) as [|e] eqn:Hcallback; simpl
  |].

Lemma dispatch_sublist stream P : notifications (dispatch stream P) `sublist_of` stream.
Proof.
  revert P. induction stream as [|a rest IH]; intros P.
  - done.
  - dispatch_step a P.
    + by apply sublist_skip.
    + apply sublist_skip, sublist_nil_l.
    + by apply sublist_cons.
Qed.

Lemma dispatch_pending stream P :
  pending (dispatch stream P) = P ∖ list_to_set (notifications (dispatch stream P)).
Proof.
  revert P. induction stream as [|a rest IH]; intros P.
  - simpl. set_solver.
  - dispatch_step a P.
    + rewrite IH. set_solver.
    + set_solver.
    + apply IH.
Qed.

Lemma dispatch_eligible stream P a :
  a ∈ notifications (dispatch stream P) → a ∈ P ∧ matches a.
Proof.
  revert P. induction stream as [|a0 rest IH]; intros P.
  - by intros ?%elem_of_nil.
  - dispatch_step a0 P.
    + intros [->|Ha]%elem_of_cons; [done|].
      apply IH in Ha as [Ha ?]. split; [set_solver|done].
    + by intros ->%list_elem_of_singleton.
    + apply IH.
Qed.

Lemma dispatch_NoDup stream P : NoDup (notifications (dispatch stream P)).
Proof.
  revert P. induction stream as [|a rest IH]; intros P.
  - apply NoDup_nil_2.
  - dispatch_step a P.
    + apply NoDup_cons. split; [|apply IH].
      intros [Ha _]%dispatch_eligible. set_solver.
    + apply NoDup_singleton.
    + apply IH.
Qed.

Lemma dispatch_complete stream P a :
  failure (dispatch stream P) = None →
  a ∈ stream → a ∈ P → matches a →
  a ∈ notifications (dispatch stream P).
Proof.
  revert P. induction stream as [|a0 rest IH]; intros P Hok Hstream HP Hm.
  - by apply elem_of_nil in Hstream.
  - revert Hok. dispatch_step a0 P; intros Hok.
    + destruct (decide (a = a0)) as [->|Hne]; [left|].
      right. apply IH; [done| |set_solver|done].
      apply elem_of_cons in Hstream as [?|?]; done.
    + done.
    + apply IH; [done| |done..].
      apply elem_of_cons in Hstream as [->|?]; [|done].
      apply andb_false_iff in Hpick as [Hout%bool_decide_eq_false|Hno]; [done|congruence].
Qed.

Lemma dispatch_all_return stream P :
  (∀ a, a ∈ stream → Automation.handleEvent (heap a) event = Returns) →
  failure (dispatch stream P) = None.
Proof.
  revert P. induction stream as [|a rest IH]; intros P Hreturn.
  - done.
  - dispatch_step a P.
    + apply IH. intros b Hb. apply Hreturn. by right.
    + rewrite Hreturn in Hcallback by left. done.
    + apply IH. intros b Hb. apply Hreturn. by right.
Qed.

Lemma dispatch_app l1 l2 P :
  dispatch (l1 ++ l2) P
  = let d1 := dispatch l1 P in
    match failure d1 with
    | Some _ => d1
    | None =>
        let d2 := dispatch l2 (pending d1) in
        {| notifications := notifications d1 ++ notifications d2;
           pending := pending d2;
           failure := failure d2 |}
    end.
Proof.
  revert P. induction l1 as [|a rest IH]; intros P.
  - simpl. by destruct (dispatch l2 P).
  - dispatch_step a P.
    + rewrite IH. simpl.
      destruct (failure (dispatch rest (P ∖ {[a]}))) eqn:Hrest; simpl; by rewrite ?Hrest.
    + done.
    + apply IH.
Qed.

End Dispatch.

(** ** The router follows the dispatch *)

Lemma for_of_with_app {A L} (l1 l2 : list A) (body : A → L → M L) (local : L) w :
  for_of_with (l1 ++ l2) body local w
  = (let* local' := for_of_with l1 body local in for_of_with l2 body local')%M w.
Proof.
  revert local w. induction l1 as [|x rest IH]; intros local w; simpl.
  - done.
  - unfold bind. destruct (body x local w) as [[local'|message] w']; [|done].
    apply IH.
Qed.

Lemma for_of_with_runMatchingAutomation heap event stream P w :
  for_of_with stream (runMatchingAutomation heap event) P w
  = (completion_of heap event (spec_dispatch heap event stream P)
                   (pending (spec_dispatch heap event stream P)),
     world_of heap event (spec_dispatch heap event stream P) w).
Proof.
  revert P w. induction stream as [|a rest IH]; intros P w.
  - unfold completion_of, world_of. simpl. destruct w. simpl.
    by rewrite !app_nil_r.
  - simpl. unfold bind at 1, runMatchingAutomation at 1.
    destruct (bool_decide (a ∈ P)) eqn:Hin; simpl; [|apply IH].
    destruct (matchEvent (heap a) event) eqn:Hmatch; simpl; [|apply IH].
    unfold bind, call_handleEvent.
    destruct (Automation.handleEvent (heap a) event) as [|e] eqn:Hcallback; simpl.
    + rewrite IH. unfold completion_of, world_of. simpl.
      by rewrite <- app_assoc.
    + done.
Qed.

Lemma handleEvent_dispatch heap event w :
  HubitatDeviceEvent.eventType event = HUBITAT_DEVICE_EVENT_TYPE →
  let d := spec_dispatch heap event (candidates event (this w))
                         (subscribedAutomations (this w)) in
  handleEvent heap event w = (completion_of heap event d (), world_of heap event d w).
Proof.
  intros Hmarker d.
  pose proof (for_of_with_runMatchingAutomation heap event
                (candidates event (this w)) (subscribedAutomations (this w)) w) as Hloop.
  fold d in Hloop. unfold candidates in Hloop.
  rewrite for_of_with_app in Hloop.
  unfold handleEvent. rewrite bool_decide_eq_true_2 by done. simpl.
  unfold bind at 1. unfold get_this at 1.
  unfold subscribersForDevice, subscribersForAttribute in Hloop.
  unfold bind in *.
  assert (∀ (c : Completion (gset AutomationRef)) w',
            (c, w') = (completion_of heap event d (pending d), world_of heap event d w) →
            (match c with Normal _ => Normal () | Thrown message => Thrown message end, w')
            = (completion_of heap event d (), world_of heap event d w)) as Hend.
  { intros c w' [= -> ->]. unfold completion_of. by destruct (failure d) as [[]|]. }
  destruct (for_of_with (subscriptionsOfAllEvents (this w)) _ _ w)
    as [[P1|message] w1]; [|by apply (Hend (Thrown message))].
  rewrite for_of_with_app in Hloop. unfold bind in Hloop.
  destruct (SubscribersMap.getSet _ (subscriptionsByDeviceId (this w)))
    as [set1|]; simpl in Hloop |- *.
  - destruct (for_of_with set1 _ P1 w1) as [[P2|message] w2];
      [|by apply (Hend (Thrown message))].
    destruct (SubscribersMap.getSet _ (subscriptionsByAttributeName (this w)))
      as [set2|]; simpl in Hloop |- *.
    + destruct (for_of_with set2 _ P2 w2) as [[P3|message] w3];
        [by apply (Hend (Normal P3))|by apply (Hend (Thrown message))].
    + by apply (Hend (Normal P2)).
  - destruct (SubscribersMap.getSet _ (subscriptionsByAttributeName (this w)))
      as [set2|]; simpl in Hloop |- *.
    + destruct (for_of_with set2 _ P1 w1) as [[P3|message] w3];
        [by apply (Hend (Normal P3))|by apply (Hend (Thrown message))].
    + by apply (Hend (Normal P1)).
Qed.

Lemma notified_handleEvent heap event w :
  HubitatDeviceEvent.eventType event = HUBITAT_DEVICE_EVENT_TYPE →
  notified (handleEvent heap event) w
  = notifications (spec_dispatch heap event (candidates event (this w))
                                 (subscribedAutomations (this w))).
Proof.
  intros Hmarker. unfold notified. rewrite handleEvent_dispatch by done.
  simpl. rewrite drop_app_length, <- list_fmap_compose.
  apply list_fmap_id.
Qed.

Lemma times_not_elem_of a log : a ∉ log → times a log = 0.
Proof.
  unfold times. induction log as [|b log IH]; intros Hnot; [done|].
  rewrite filter_cons. case_decide as Heq.
  - subst b. exfalso. apply Hnot. left.
  - apply IH. intros Hin. apply Hnot. by right.
Qed.

Lemma times_NoDup a log : NoDup log → (times a log ≤ 1)%nat.
Proof.
  induction 1 as [|b log Hb Hlog IH]; [unfold times; simpl; lia|].
  unfold times in *. rewrite filter_cons. case_decide as Heq; [|done].
  subst b. simpl. pose proof (times_not_elem_of a log Hb) as Hzero.
  unfold times in Hzero. lia.
Qed.

Lemma times_NoDup_elem_of a log : NoDup log → a ∈ log → times a log = 1.
Proof.
  intros Hlog Ha. pose proof (times_NoDup a log Hlog) as Hle.
  unfold times in *.
  assert (a ∈ filter (λ other, other = a) log) as Hin
    by (by apply list_elem_of_filter).
  destruct (filter (λ other, other = a) log); [by apply elem_of_nil in Hin|].
  simpl in *. lia.
Qed.

Lemma candidates_indexed event s a : a ∈ candidates event s → a ∈ indexed s.
Proof.
  unfold candidates. rewrite !elem_of_app, elem_of_indexed.
  intros [?|[?|?]]; eauto.
Qed.

(** ** The event router *)

(** C2. Exactly-once dispatch: [handleEvent] on a device event invokes the
    callback of every automation at most once, in whichever buckets the
    automation occurs; and when the callbacks of all candidates return, the
    call returns and has invoked exactly once every subscribed automation
    that matches the event and occurs in one of the three traversed
    buckets. *)
Theorem handleEvent_exactly_once heap event w :
  HubitatDeviceEvent.eventType event = HUBITAT_DEVICE_EVENT_TYPE →
  (∀ a, (times a (notified (handleEvent heap event) w) ≤ 1)%nat)
  ∧ ((∀ a, a ∈ candidates event (this w) →
           Automation.handleEvent (heap a) event = Returns) →
     (handleEvent heap event w).1 = Normal ()
     ∧ ∀ a, a ∈ subscribedAutomations (this w) →
            matchEvent (heap a) event = true →
            a ∈ candidates event (this w) →
            times a (notified (handleEvent heap event) w) = 1).
Proof.
  intros Hmarker. rewrite notified_handleEvent by done. split.
  - intros a. apply times_NoDup, dispatch_NoDup.
  - intros Hreturn.
    pose proof (dispatch_all_return heap event _ (subscribedAutomations (this w)) Hreturn)
      as Hok.
    split.
    + rewrite handleEvent_dispatch by done. unfold completion_of. simpl.
      by rewrite Hok.
    + intros a Hsub Hmatch Hcand.
      apply times_NoDup_elem_of; [apply dispatch_NoDup|].
      by apply dispatch_complete.
Qed.

(** C5. Failure short-circuit: in a state the registry can reach, when the
    candidate stream of a device event is [A; B; C], three different
    automations that all match, A's callback returns and B's callback throws,
    then [handleEvent] has invoked A, then B, and nothing else; it has logged
    B's failure and throws the error that names B and carries the event; C is
    not invoked. *)
Theorem handleEvent_failure_short_circuit calls heap event w A B C e :
  this w = run calls new_Service →
  HubitatDeviceEvent.eventType event = HUBITAT_DEVICE_EVENT_TYPE →
  candidates event (this w) = [A; B; C] →
  NoDup [A; B; C] →
  matchEvent (heap A) event = true →
  matchEvent (heap B) event = true →
  matchEvent (heap C) event = true →
  Automation.handleEvent (heap A) event = Returns →
  Automation.handleEvent (heap B) event = Throws e →
  handleEvent heap event w
  = (Thrown ("The automation " +:+ dquote +:+ Automation.name (heap B) +:+ dquote
               +:+ " failed to handle event: " +:+ JSON_stringify event),
     {| this := this w;
        invoked := invoked w ++ [(A, event); (B, event)];
        console := console w ++ [callback_failed_log (heap B) e] |})
  ∧ notified (handleEvent heap event) w = [A; B]
  ∧ C ∉ notified (handleEvent heap event) w.
Proof.
  intros Hrun Hmarker Hstream Hdistinct HmA HmB HmC HA HB.
  assert (∀ a, a ∈ [A; B; C] → a ∈ subscribedAutomations (this w)) as Hsub.
  { intros a Ha. rewrite <- Hstream in Ha. apply candidates_indexed in Ha.
    rewrite Hrun in *. by apply run_indexed_subseteq. }
  apply NoDup_cons in Hdistinct as [HAne Hdistinct].
  apply NoDup_cons in Hdistinct as [HBne _].
  assert (A ≠ B) as HAB by (intros ->; apply HAne; left).
  assert (A ≠ C) as HAC by (intros ->; apply HAne; right; left).
  assert (B ≠ C) as HBC by (intros ->; apply HBne; left).
  assert (spec_dispatch heap event [A; B; C] (subscribedAutomations (this w))
          = {| notifications := [A; B];
               pending := subscribedAutomations (this w) ∖ {[A]} ∖ {[B]};
               failure := Some (B, e) |}) as Hdispatch.
  { simpl. rewrite (bool_decide_eq_true_2 (A ∈ _)) by (apply Hsub; left).
    rewrite HmA, HA. simpl.
    rewrite (bool_decide_eq_true_2 (B ∈ _)).
    - by rewrite HmB, HB.
    - apply elem_of_difference. split; [apply Hsub; right; left|].
      by intros ->%elem_of_singleton. }
  assert (notified (handleEvent heap event) w = [A; B]) as Hnotified.
  { rewrite notified_handleEvent by done. by rewrite Hstream, Hdispatch. }
  split; [|split; [done|]].
  - rewrite handleEvent_dispatch by done. rewrite Hstream, Hdispatch. done.
  - rewrite Hnotified. intros [->|[->|?%elem_of_nil]%elem_of_cons]%elem_of_cons; done.
Qed.

(** C6, amended. Notification order: the automations a device event is
    delivered to are notified in three consecutive phases: first those taken
    from the catch-all bucket, then those taken from the bucket of the event's
    device id, then those taken from the bucket of its attribute name; each
    phase follows the order of its bucket, and an automation filed in several
    of the buckets is notified in the first of them only. *)
Theorem handleEvent_notification_order heap event w :
  HubitatDeviceEvent.eventType event = HUBITAT_DEVICE_EVENT_TYPE →
  ∃ t1 t2 t3 : list AutomationRef,
    notified (handleEvent heap event) w = (t1 ++ t2 ++ t3)%list
    ∧ t1 `sublist_of` subscriptionsOfAllEvents (this w)
    ∧ t2 `sublist_of` subscribersForDevice (HubitatDeviceEvent.deviceId event) (this w)
    ∧ t3 `sublist_of`
         subscribersForAttribute (HubitatDeviceEvent.attributeName event) (this w)
    ∧ (∀ a, a ∈ t2 → a ∉ subscriptionsOfAllEvents (this w))
    ∧ (∀ a, a ∈ t3 →
            (a ∉ subscriptionsOfAllEvents (this w))
            ∧ (a ∉ subscribersForDevice (HubitatDeviceEvent.deviceId event) (this w))).
Proof.
  intros Hmarker. rewrite notified_handleEvent by done. unfold candidates.
  set (l1 := subscriptionsOfAllEvents (this w)).
  set (l2 := subscribersForDevice _ (this w)).
  set (l3 := subscribersForAttribute _ (this w)).
  set (P := subscribedAutomations (this w)).
  rewrite dispatch_app. simpl.
  pose proof (dispatch_sublist heap event l1 P) as Hsub1.
  destruct (failure (spec_dispatch heap event l1 P)) as [thrower|] eqn:Hok1.
  { exists (notifications (spec_dispatch heap event l1 P)), [], [].
    rewrite !app_nil_r. repeat split; try done; try apply sublist_nil_l.
    all: intros; by match goal with H : _ ∈ [] |- _ => apply elem_of_nil in H end. }
  set (P1 := pending (spec_dispatch heap event l1 P)).
  assert (∀ a, a ∈ P1 → a ∈ l1 → matchEvent (heap a) event = true → False) as Hfirst.
  { intros a Ha Hl1 Hm. unfold P1 in Ha. rewrite dispatch_pending in Ha.
    apply elem_of_difference in Ha as [HP Hnot].
    apply Hnot, elem_of_list_to_set. by apply dispatch_complete. }
  rewrite dispatch_app. simpl.
  pose proof (dispatch_sublist heap event l2 P1) as Hsub2.
  assert (∀ a, a ∈ notifications (spec_dispatch heap event l2 P1) → a ∉ l1) as Hlate2.
  { intros a [Ha Hm]%dispatch_eligible Hl1. by apply (Hfirst a). }
  destruct (failure (spec_dispatch heap event l2 P1)) as [thrower|] eqn:Hok2.
  { exists (notifications (spec_dispatch heap event l1 P)),
           (notifications (spec_dispatch heap event l2 P1)), [].
    rewrite !app_nil_r. repeat split; try done; try apply sublist_nil_l.
    all: intros; by match goal with H : _ ∈ [] |- _ => apply elem_of_nil in H end. }
  set (P2 := pending (spec_dispatch heap event l2 P1)).
  exists (notifications (spec_dispatch heap event l1 P)),
         (notifications (spec_dispatch heap event l2 P1)),
         (notifications (spec_dispatch heap event l3 P2)).
  assert (∀ a, a ∈ notifications (spec_dispatch heap event l3 P2) →
               a ∈ P1 ∧ (a ∉ l2) ∧ matchEvent (heap a) event = true) as Hlate3.
  { intros a [Ha Hm]%dispatch_eligible. unfold P2 in Ha.
    rewrite dispatch_pending in Ha. apply elem_of_difference in Ha as [HP1 Hnot].
    split; [done|]. split; [|done].
    intros Hl2. apply Hnot, elem_of_list_to_set. by apply dispatch_complete. }
  simpl. split; [done|]. split; [done|]. split; [done|].
  split; [apply dispatch_sublist|]. split; [done|].
  intros a (HP1 & Hl2 & Hm)%Hlate3. split; [|done].
  intros Hl1. by apply (Hfirst a).
Qed.

(** ** Unregistering *)

Lemma perform_other_filed_within call a triggers s :
  call_automation call ≠ a →
  filed_within a triggers s →
  filed_within a triggers (after (perform call) s).
Proof.
  intros Hother (Hall & Hdev & Hattr). unfold after.
  set (w := {| this := s; invoked := []; console := [] |}).
  destruct call as [heap b|heap b]; simpl in *.
  - destruct (decide (b ∈ subscribedAutomations s)) as [Hknown|Hnew].
    + by rewrite registerAutomation_known.
    + destruct (registerAutomation_new heap b w Hnew)
        as (_ & _ & _ & Hall' & Hdev' & Hattr' & _).
      repeat split; intros *; rewrite ?Hall', ?Hdev', ?Hattr'; naive_solver.
  - destruct (unregisterAutomation_unregistered heap b w)
      as (_ & _ & _ & (s1 & (Hall' & Hdev' & Hattr' & _) & Heq1 & Heq2 & Heq3) & _).
    unfold filed_within, subscribersForDevice, subscribersForAttribute in *.
    rewrite Heq1, Heq2, Heq3.
    repeat split; intros *; rewrite ?Hall', ?Hdev', ?Hattr'; naive_solver.
Qed.

Lemma run_other_filed_within calls a triggers s :
  Forall (λ call, call_automation call ≠ a) calls →
  filed_within a triggers s →
  filed_within a triggers (run calls s).
Proof.
  induction calls as [|call calls IH] using rev_ind; intros Hother Hs; [done|].
  apply Forall_app in Hother as [Hcalls Hcall].
  apply Forall_cons in Hcall as [Hcall _].
  rewrite run_snoc. apply perform_other_filed_within; auto.
Qed.

Lemma registerAutomation_filed_within heap a s :
  indexed s ⊆ subscribedAutomations s →
  a ∉ subscribedAutomations s →
  filed_within a (getCompatibleTriggers (Automation.builtTriggers (heap a)))
               (after (registerAutomation heap a) s).
Proof.
  intros Hinv Hnew. unfold after.
  set (w := {| this := s; invoked := []; console := [] |}).
  destruct (registerAutomation_new heap a w Hnew)
    as (_ & _ & _ & Hall & Hdev & Hattr & _).
  assert (a ∉ indexed s) as Hout by set_solver.
  rewrite elem_of_indexed in Hout.
  repeat split; intros *; rewrite ?Hall, ?Hdev, ?Hattr; naive_solver.
Qed.

Lemma unregisterAutomation_filed_within heap a s :
  filed_within a (getCompatibleTriggers (Automation.builtTriggers (heap a))) s →
  a ∉ subscribedAutomations (after (unregisterAutomation heap a) s).
Proof.
  intros (Hall & Hdev & Hattr). unfold after.
  set (w := {| this := s; invoked := []; console := [] |}).
  destruct (unregisterAutomation_unregistered heap a w)
    as (_ & _ & _ & (s1 & (Hall' & Hdev' & Hattr' & _) & Heq1 & Heq2 & Heq3) & ->).
  rewrite elem_of_indexed.
  unfold subscribersForDevice, subscribersForAttribute in *.
  rewrite Heq1, Heq2, Heq3.
  setoid_rewrite Hall'. setoid_rewrite Hdev'. setoid_rewrite Hattr'.
  naive_solver.
Qed.

Lemma notified_subscribed heap event w a :
  a ∈ notified (handleEvent heap event) w → a ∈ subscribedAutomations (this w).
Proof.
  destruct (decide (HubitatDeviceEvent.eventType event = HUBITAT_DEVICE_EVENT_TYPE))
    as [Hmarker|Hother].
  - rewrite notified_handleEvent by done. by intros [? _]%dispatch_eligible.
  - unfold notified, handleEvent. rewrite bool_decide_eq_false_2 by done. simpl.
    rewrite drop_all. by intros ?%elem_of_nil.
Qed.

(** C8. Unregister completeness: take a state the registry can reach, an
    automation A that is not subscribed there and has exactly one device-event
    trigger definition, register A, let any calls about other automations
    follow, and unregister A with its trigger definition unchanged.  Then A is
    not in the subscribed set, and no dispatch of any event, in particular of
    one its trigger definition matches, invokes A's callback. *)
Theorem unregisterAutomation_complete calls mid heap heap' A trigger :
  getCompatibleTriggers (Automation.builtTriggers (heap A)) = [trigger] →
  getCompatibleTriggers (Automation.builtTriggers (heap' A)) = [trigger] →
  A ∉ subscribedAutomations (run calls new_Service) →
  Forall (λ call, call_automation call ≠ A) mid →
  let s1 := after (registerAutomation heap A) (run calls new_Service) in
  let s2 := after (unregisterAutomation heap' A) (run mid s1) in
  A ∈ subscribedAutomations s1
  ∧ (A ∉ subscribedAutomations s2)
  ∧ ∀ heap'' event w, this w = s2 → A ∉ notified (handleEvent heap'' event) w.
Proof.
  intros Htrigger Htrigger' Hnew Hmid s1 s2.
  assert (A ∉ subscribedAutomations s2) as Hgone.
  { apply unregisterAutomation_filed_within. rewrite Htrigger', <- Htrigger.
    apply run_other_filed_within; [done|].
    apply registerAutomation_filed_within; [apply run_indexed_subseteq|done]. }
  split; [|split; [done|]].
  - unfold s1, after.
    set (w := {| this := run calls new_Service; invoked := []; console := [] |}).
    destruct (registerAutomation_new heap A w Hnew) as (_ & _ & _ & _ & _ & _ & Hsub).
    apply Hsub. right. by rewrite Htrigger.
  - intros heap'' event w Hw Hnotified. apply notified_subscribed in Hnotified.
    by rewrite Hw in Hnotified.
Qed.

(** ** The examples of the specification *)

(** A change group with the filters [is on] and [was off] matches a switch
    that turns on from off and does not match one that was on already. *)
Example change_group_is_on_was_off :
  let af := {| AttributeFilter.attributeNames := ["switch"];
               AttributeFilter.changeGroups :=
                 [ {| ChangeGroup.filters :=
                        [ {| ChangeFilter.name := "is"; ChangeFilter.value := Some "on" |};
                          {| ChangeFilter.name := "was"; ChangeFilter.value := Some "off" |}
                        ] |} ] |} in
  matchGroups af sample_event = true
  ∧ matchGroups af
      {| HubitatDeviceEvent.eventType := HUBITAT_DEVICE_EVENT_TYPE;
         HubitatDeviceEvent.deviceId := 5;
         HubitatDeviceEvent.attributeName := "switch";
         HubitatDeviceEvent.newValue := "on";
         HubitatDeviceEvent.previousValue := "on" |} = false.
Proof. split; reflexivity. Qed.

(** * Further properties *)

(** ** Of the matcher *)

(** X1. Triggers of another type are skipped: an automation matches the same
    events, and has the same device-event triggers, with or without a trigger
    whose type is not the device-event marker, wherever it stands in the
    list. *)
Theorem matchEvent_other_trigger_type name callback l1 t l2 event :
  TriggerDefinition.triggerType t ≠ HUBITAT_DEVICE_EVENT_TYPE →
  getCompatibleTriggers (l1 ++ t :: l2) = getCompatibleTriggers (l1 ++ l2)
  ∧ matchEvent {| Automation.name := name;
                  Automation.builtTriggers := l1 ++ t :: l2;
                  Automation.handleEvent := callback |} event
    = matchEvent {| Automation.name := name;
                    Automation.builtTriggers := l1 ++ l2;
                    Automation.handleEvent := callback |} event.
Proof.
  intros Hother.
  assert (getCompatibleTriggers (l1 ++ t :: l2) = getCompatibleTriggers (l1 ++ l2))
    as Hsame.
  { unfold getCompatibleTriggers. rewrite !filter_app.
    by rewrite filter_cons_False. }
  split; [done|]. unfold matchEvent. simpl. by rewrite Hsame.
Qed.

(** X2. The order of the trigger definitions does not matter: two automations
    whose trigger lists are permutations of each other match the same
    events. *)
Theorem matchEvent_Permutation a a' event :
  Automation.builtTriggers a ≡ₚ Automation.builtTriggers a' →
  matchEvent a event = matchEvent a' event.
Proof.
  intros Hperm.
  assert (∀ b b', Automation.builtTriggers b ≡ₚ Automation.builtTriggers b' →
                  matchEvent b event = true → matchEvent b' event = true) as Hone.
  { intros b b' Hbb' (t & Ht & Hm)%matchEvent_loop_true.
    apply matchEvent_loop_true. exists t. split; [|done].
    unfold getCompatibleTriggers in *.
    apply list_elem_of_filter in Ht as [Htype Hin].
    apply list_elem_of_filter. split; [done|]. by rewrite <- Hbb'. }
  destruct (matchEvent a event) eqn:Ha.
  - symmetry. by apply (Hone a a').
  - destruct (matchEvent a' event) eqn:Ha'; [|done].
    rewrite (Hone a' a) in Ha; done.
Qed.

(** X3. An attribute filter that does not list the event's attribute name, or
    that has no change group, contributes nothing: a trigger all of whose
    attribute filters are such has no matching attribute filter, whatever the
    values of the event. *)
Theorem matchAttributes_nothing_to_match trigger event :
  (∀ af, af ∈ TriggerDefinition.attributes trigger →
         HubitatDeviceEvent.attributeName event ∉ AttributeFilter.attributeNames af
         ∨ AttributeFilter.changeGroups af = []) →
  matchAttributes trigger event = false.
Proof.
  intros Hnone. destruct (matchAttributes trigger event) eqn:Hmatch; [|done].
  apply matchAttributes_true in Hmatch as (af & g & Haf & Hname & Hg & _).
  destruct (Hnone af Haf) as [?|Hnil]; [done|].
  rewrite Hnil in Hg. by apply elem_of_nil in Hg.
Qed.

(** ** Of the event router *)

Lemma dispatch_outcomes heap event stream P :
  let d := spec_dispatch heap event stream P in
  match failure d with
  | None => ∀ a, a ∈ notifications d → Automation.handleEvent (heap a) event = Returns
  | Some (b, e) =>
      ∃ pre, notifications d = (pre ++ [b])%list
             ∧ Automation.handleEvent (heap b) event = Throws e
             ∧ ∀ a, a ∈ pre → Automation.handleEvent (heap a) event = Returns
  end.
Proof.
  revert P. induction stream as [|a0 rest IH]; intros P; simpl.
  - by intros a ?%elem_of_nil.
  - destruct (bool_decide (a0 ∈ P) && matchEvent (heap a0) event); [|apply IH].
    destruct (Automation.handleEvent (heap a0) event) as [|e] eqn:Hcallback; simpl.
    + specialize (IH (P ∖ {[a0]})). simpl in IH.
      destruct (failure (spec_dispatch heap event rest (P ∖ {[a0]}))) as [[b e]|].
      * destruct IH as (pre & -> & Hb & Hpre). exists (a0 :: pre).
        split; [done|]. split; [done|].
        intros a [->|Ha]%elem_of_cons; auto.
      * intros a [->|Ha]%elem_of_cons; auto.
    + exists []. split; [done|]. split; [done|]. by intros a ?%elem_of_nil.
Qed.

(** X4. What the router never does: an automation whose callback
    [handleEvent] invokes is subscribed, is a candidate of the event, and its
    triggers match the event, which is a device event. *)
Theorem handleEvent_sound heap event w a :
  a ∈ notified (handleEvent heap event) w →
  HubitatDeviceEvent.eventType event = HUBITAT_DEVICE_EVENT_TYPE
  ∧ a ∈ subscribedAutomations (this w)
  ∧ a ∈ candidates event (this w)
  ∧ matchEvent (heap a) event = true.
Proof.
  destruct (decide (HubitatDeviceEvent.eventType event = HUBITAT_DEVICE_EVENT_TYPE))
    as [Hmarker|Hother].
  - rewrite notified_handleEvent by done. intros Ha.
    pose proof (dispatch_sublist heap event (candidates event (this w))
                  (subscribedAutomations (this w))) as Hsub.
    pose proof (sublist_submseteq _ _ Hsub) as Hsubm.
    apply dispatch_eligible in Ha as Hel. destruct Hel as [Hin Hm].
    repeat split; try done.
    by apply (elem_of_submseteq _ _ _ Ha).
  - unfold notified, handleEvent. rewrite bool_decide_eq_false_2 by done. simpl.
    rewrite drop_all. by intros ?%elem_of_nil.
Qed.

(** X5. The router only reads the registry: whatever the event and whether
    the call returns or throws, the four fields of the service are as before,
    the log of invoked callbacks is extended at its end, and a call that
    returns has written nothing to the console. *)
Theorem handleEvent_preserves_service heap event w :
  this (handleEvent heap event w).2 = this w
  ∧ (∃ more, invoked (handleEvent heap event w).2 = (invoked w ++ more)%list)
  ∧ ((handleEvent heap event w).1 = Normal () →
     console (handleEvent heap event w).2 = console w).
Proof.
  destruct (decide (HubitatDeviceEvent.eventType event = HUBITAT_DEVICE_EVENT_TYPE))
    as [Hmarker|Hother].
  - rewrite handleEvent_dispatch by done. unfold completion_of, world_of. simpl.
    split; [done|]. split; [by eexists|].
    destruct (failure (spec_dispatch heap event _ _)) as [[b e]|]; [done|].
    intros _. by rewrite app_nil_r.
  - unfold handleEvent. rewrite bool_decide_eq_false_2 by done. simpl.
    split; [done|]. split; [|done]. exists []. by rewrite app_nil_r.
Qed.

(** X6. How a dispatch ends: either [handleEvent] returns and every callback
    it invoked returned, or it throws, and then the last callback it invoked
    is the one that threw, every callback invoked before it returned, the
    error names that automation and carries the event, and the console has
    one more line, which names the automation and tells what the callback
    threw. *)
Theorem handleEvent_outcome heap event w :
  let log := notified (handleEvent heap event) w in
  match (handleEvent heap event w).1 with
  | Normal _ =>
      ∀ a, a ∈ log → Automation.handleEvent (heap a) event = Returns
  | Thrown message =>
      ∃ pre b e,
        log = (pre ++ [b])%list
        ∧ Automation.handleEvent (heap b) event = Throws e
        ∧ (∀ a, a ∈ pre → Automation.handleEvent (heap a) event = Returns)
        ∧ message = "The automation " +:+ dquote +:+ Automation.name (heap b) +:+ dquote
                      +:+ " failed to handle event: " +:+ JSON_stringify event
        ∧ console (handleEvent heap event w).2
          = (console w
             ++ ["Error occurred in the " +:+ dquote +:+ Automation.name (heap b)
                   +:+ dquote +:+ " automation: " +:+ e])%list
  end.
Proof.
  destruct (decide (HubitatDeviceEvent.eventType event = HUBITAT_DEVICE_EVENT_TYPE))
    as [Hmarker|Hother].
  - intros log. unfold log. rewrite notified_handleEvent by done.
    rewrite handleEvent_dispatch by done. unfold completion_of, world_of. simpl.
    pose proof (dispatch_outcomes heap event (candidates event (this w))
                  (subscribedAutomations (this w))) as Hout.
    simpl in Hout.
    destruct (failure (spec_dispatch heap event _ _)) as [[b e]|]; [|done].
    destruct Hout as (pre & Hlog & Hb & Hpre). by exists pre, b, e.
  - intros log. unfold log, notified, handleEvent.
    rewrite bool_decide_eq_false_2 by done. simpl.
    rewrite drop_all. by intros a ?%elem_of_nil.
Qed.

(** X7. Nobody to notify: when the catch-all set is empty and neither the
    event's device id nor its attribute name has an entry in its map,
    [handleEvent] returns and leaves everything as it was. *)
Theorem handleEvent_nobody heap event w :
  subscriptionsOfAllEvents (this w) = [] →
  subscriptionsByDeviceId (this w) !! HubitatDeviceEvent.deviceId event = None →
  subscriptionsByAttributeName (this w) !! HubitatDeviceEvent.attributeName event = None →
  handleEvent heap event w = (Normal (), w).
Proof.
  intros Hall Hdev Hattr. unfold handleEvent.
  destruct (bool_decide (HubitatDeviceEvent.eventType event = HUBITAT_DEVICE_EVENT_TYPE));
    [|done].
  simpl. unfold bind, get_this, SubscribersMap.getSet.
  by rewrite Hall, Hdev, Hattr.
Qed.

(** ** Of the registry *)

Lemma perform_members_of_others call x s :
  call_automation call ≠ x →
  (x ∈ subscriptionsOfAllEvents (after (perform call) s)
   ↔ x ∈ subscriptionsOfAllEvents s)
  ∧ (∀ k, x ∈ subscribersForDevice k (after (perform call) s)
          ↔ x ∈ subscribersForDevice k s)
  ∧ (∀ n, x ∈ subscribersForAttribute n (after (perform call) s)
          ↔ x ∈ subscribersForAttribute n s).
Proof.
  intros Hother. unfold after.
  set (w := {| this := s; invoked := []; console := [] |}).
  destruct call as [heap b|heap b]; simpl in *.
  - destruct (decide (b ∈ subscribedAutomations s)) as [Hknown|Hnew].
    + by rewrite registerAutomation_known.
    + destruct (registerAutomation_new heap b w Hnew)
        as (_ & _ & _ & Hall & Hdev & Hattr & _).
      repeat split; intros *; rewrite ?Hall, ?Hdev, ?Hattr; naive_solver.
  - destruct (unregisterAutomation_unregistered heap b w)
      as (_ & _ & _ & (s1 & (Hall & Hdev & Hattr & _) & Heq1 & Heq2 & Heq3) & _).
    unfold subscribersForDevice, subscribersForAttribute in *.
    rewrite Heq1, Heq2, Heq3.
    repeat split; intros *; rewrite ?Hall, ?Hdev, ?Hattr; naive_solver.
Qed.

Lemma run_other_filed_covering calls a triggers s :
  Forall (λ call, call_automation call ≠ a) calls →
  filed_covering a triggers s →
  filed_covering a triggers (run calls s).
Proof.
  induction calls as [|call calls IH] using rev_ind; intros Hother Hs; [done|].
  apply Forall_app in Hother as [Hcalls Hcall].
  apply Forall_cons in Hcall as [Hcall _].
  rewrite run_snoc.
  destruct (perform_members_of_others call a (run calls s) Hcall)
    as (Hall & Hdev & Hattr).
  destruct (IH Hcalls Hs) as (Hall' & Hdev' & Hattr').
  repeat split; intros *; rewrite ?Hall, ?Hdev, ?Hattr; auto.
Qed.

Lemma registerAutomation_filed_covering heap a s :
  a ∉ subscribedAutomations s →
  filed_covering a (getCompatibleTriggers (Automation.builtTriggers (heap a)))
                 (after (registerAutomation heap a) s).
Proof.
  intros Hnew. unfold after.
  set (w := {| this := s; invoked := []; console := [] |}).
  destruct (registerAutomation_new heap a w Hnew)
    as (_ & _ & _ & Hall & Hdev & Hattr & _).
  repeat split; intros *; rewrite ?Hall, ?Hdev, ?Hattr; naive_solver.
Qed.

Lemma run_app calls calls' s : run (calls ++ calls') s = run calls' (run calls s).
Proof. unfold run. by rewrite foldl_app. Qed.

(** A trigger that matches an event describes a bucket the event is looked up
    in. *)
Lemma matching_trigger_described triggers t event :
  t ∈ triggers →
  spec_trigger_matches t event →
  describes_all triggers
  ∨ describes_device triggers (HubitatDeviceEvent.deviceId event)
  ∨ describes_attribute triggers (HubitatDeviceEvent.attributeName event).
Proof.
  intros Ht [[Hd [Ha|(af & g & Haf & Hname & _)]]|(Hd & Hid & _)].
  - left. by exists t.
  - right. right. exists t. split; [done|]. split; [done|].
    unfold TriggerDefinition.allAttributeNames.
    apply elem_of_remove_dups, list_elem_of_join.
    exists (AttributeFilter.attributeNames af). split; [done|].
    apply list_elem_of_fmap. by exists af.
  - right. left. by exists t.
Qed.

Lemma filed_covering_candidate a triggers t event s :
  filed_covering a triggers s →
  t ∈ triggers →
  spec_trigger_matches t event →
  a ∈ candidates event s.
Proof.
  intros (Hall & Hdev & Hattr) Ht Hm. unfold candidates. rewrite !elem_of_app.
  destruct (matching_trigger_described triggers t event Ht Hm) as [?|[?|?]]; auto.
Qed.

(** X8. Calls about other automations leave an automation where it is: after
    any run of register and unregister calls none of which is about [x], [x]
    is in exactly the buckets it was in before. *)
Theorem run_members_of_others calls x s :
  Forall (λ call, call_automation call ≠ x) calls →
  (x ∈ subscriptionsOfAllEvents (run calls s) ↔ x ∈ subscriptionsOfAllEvents s)
  ∧ (∀ k, x ∈ subscribersForDevice k (run calls s) ↔ x ∈ subscribersForDevice k s)
  ∧ (∀ n, x ∈ subscribersForAttribute n (run calls s)
          ↔ x ∈ subscribersForAttribute n s).
Proof.
  induction calls as [|call calls IH] using rev_ind; intros Hother; [done|].
  apply Forall_app in Hother as [Hcalls Hcall].
  apply Forall_cons in Hcall as [Hcall _].
  rewrite run_snoc.
  destruct (perform_members_of_others call x (run calls s) Hcall)
    as (Hall & Hdev & Hattr).
  destruct (IH Hcalls) as (Hall' & Hdev' & Hattr').
  repeat split; intros *; rewrite ?Hall, ?Hdev, ?Hattr, ?Hall', ?Hdev', ?Hattr'; auto.
Qed.

(** X9. [registerAutomation] throws exactly when the automation is in the
    subscribed set; it never invokes a callback nor writes to the console,
    takes nobody out of a bucket or of the subscribed set, and adds nobody but
    the automation it is called with. *)
Theorem registerAutomation_throws_iff heap a w :
  let w' := (registerAutomation heap a w).2 in
  ((registerAutomation heap a w).1 = Normal () ↔ a ∉ subscribedAutomations (this w))
  ∧ invoked w' = invoked w
  ∧ console w' = console w
  ∧ subscribedAutomations (this w) ⊆ subscribedAutomations (this w')
  ∧ subscribedAutomations (this w') ⊆ subscribedAutomations (this w) ∪ {[a]}
  ∧ indexed (this w) ⊆ indexed (this w')
  ∧ indexed (this w') ⊆ indexed (this w) ∪ {[a]}.
Proof.
  intros w'. unfold w'.
  destruct (decide (a ∈ subscribedAutomations (this w))) as [Hknown|Hnew].
  - rewrite registerAutomation_known by done. simpl.
    split; [split; [done|by intros []]|]. set_solver.
  - destruct (registerAutomation_new heap a w Hnew)
      as (Hnormal & Hinv & Hcon & Hall & Hdev & Hattr & Hsub).
    split; [done|]. split; [done|]. split; [done|].
    split; [intros x; rewrite Hsub; auto|].
    split; [intros x; rewrite Hsub, elem_of_union, elem_of_singleton; naive_solver|].
    split; intros x; rewrite !elem_of_indexed, ?elem_of_union, ?elem_of_singleton,
      ?elem_of_indexed; setoid_rewrite Hall; setoid_rewrite Hdev; setoid_rewrite Hattr;
      naive_solver.
Qed.

(** X10. [unregisterAutomation] never throws, whatever the state and whether
    or not the automation was registered; it invokes no callback and writes
    nothing to the console, it takes nobody but the automation it is called
    with out of a bucket and puts nobody into one, and it leaves the
    subscribed set equal to the union of the indices. *)
Theorem unregisterAutomation_total heap a w :
  let w' := (unregisterAutomation heap a w).2 in
  (unregisterAutomation heap a w).1 = Normal ()
  ∧ invoked w' = invoked w
  ∧ console w' = console w
  ∧ subscribedAutomations (this w') = indexed (this w')
  ∧ indexed (this w') ⊆ indexed (this w)
  ∧ indexed (this w) ⊆ indexed (this w') ∪ {[a]}.
Proof.
  intros w'. unfold w'.
  destruct (unregisterAutomation_unregistered heap a w)
    as (Hnormal & Hinv & Hcon
        & (s1 & (Hall & Hdev & Hattr & _) & Heq1 & Heq2 & Heq3) & Hsub).
  do 4 (split; [done|]).
  split; intros x; rewrite ?elem_of_union, ?elem_of_singleton, !elem_of_indexed;
    unfold subscribersForDevice, subscribersForAttribute in *;
    rewrite Heq1, Heq2, Heq3;
    setoid_rewrite Hall; setoid_rewrite Hdev; setoid_rewrite Hattr.
  - naive_solver.
  - destruct (decide (x = a)); naive_solver.
Qed.

(** X11. Register and unregister undo each other: from a state the registry
    can reach in which the automation is not subscribed, registering it and
    then unregistering it with the same device-event triggers leaves every
    bucket with the automations it held before, and the subscribed set equal
    to the union of the indices as they were. *)
Theorem register_unregister_round_trip calls heap heap' A :
  getCompatibleTriggers (Automation.builtTriggers (heap' A))
  = getCompatibleTriggers (Automation.builtTriggers (heap A)) →
  A ∉ subscribedAutomations (run calls new_Service) →
  let s0 := run calls new_Service in
  let s2 := after (unregisterAutomation heap' A) (after (registerAutomation heap A) s0) in
  same_members s0 s2 ∧ subscribedAutomations s2 = indexed s0.
Proof.
  intros Hsame Hnew s0 s2.
  assert (A ∉ indexed s0) as Hout.
  { intros Hin. by apply Hnew, run_indexed_subseteq. }
  rewrite elem_of_indexed in Hout.
  assert (same_members s0 s2) as Hmembers.
  { unfold s2, after at 1.
    set (s1 := after (registerAutomation heap A) s0).
    set (w1 := {| this := s1; invoked := []; console := [] |}).
    destruct (unregisterAutomation_unregistered heap' A w1)
      as (_ & _ & _ & (s1' & (Hall' & Hdev' & Hattr' & _) & Heq1 & Heq2 & Heq3) & _).
    unfold s1, after in Hall', Hdev', Hattr'.
    set (w0 := {| this := s0; invoked := []; console := [] |}) in *.
    destruct (registerAutomation_new heap A w0 Hnew)
      as (_ & _ & _ & Hall & Hdev & Hattr & _).
    simpl in Hall', Hdev', Hattr', Hall, Hdev, Hattr. rewrite Hsame in *.
    unfold same_members, subscribersForDevice, subscribersForAttribute in *.
    rewrite Heq1, Heq2, Heq3.
    repeat split; intros *;
      rewrite ?Hall', ?Hdev', ?Hattr', ?Hall, ?Hdev, ?Hattr; naive_solver. }
  split; [done|].
  assert (subscribedAutomations s2 = indexed s2) as ->.
  { unfold s2, after at 1.
    by destruct (unregisterAutomation_unregistered heap' A
                   {| this := after (registerAutomation heap A) s0;
                      invoked := []; console := [] |}) as (_ & _ & _ & _ & ->). }
  destruct Hmembers as (Hall & Hdev & Hattr).
  apply set_eq. intros x. rewrite !elem_of_indexed.
  setoid_rewrite Hall. setoid_rewrite Hdev. by setoid_rewrite Hattr.
Qed.

(** X12. After unregistering, an automation can be registered again: from a
    state the registry can reach in which A is not subscribed, register A,
    let calls about other automations follow, unregister A with the same
    device-event triggers; a further [registerAutomation] of A, with whatever
    triggers it has by then, returns. *)
Theorem unregister_then_register calls mid heap heap' heap'' A w :
  getCompatibleTriggers (Automation.builtTriggers (heap' A))
  = getCompatibleTriggers (Automation.builtTriggers (heap A)) →
  A ∉ subscribedAutomations (run calls new_Service) →
  Forall (λ call, call_automation call ≠ A) mid →
  this w = after (unregisterAutomation heap' A)
                 (run mid (after (registerAutomation heap A) (run calls new_Service))) →
  (registerAutomation heap'' A w).1 = Normal ().
Proof.
  intros Hsame Hnew Hmid Hw.
  apply registerAutomation_new. rewrite Hw.
  apply unregisterAutomation_filed_within. rewrite Hsame.
  apply run_other_filed_within; [done|].
  apply registerAutomation_filed_within; [apply run_indexed_subseteq|done].
Qed.

(** X13. A registered automation gets the events it matches: from a state the
    registry can reach in which A is not subscribed, register A and let calls
    about other automations follow.  Then every device event that A's
    triggers match, dispatched while the callbacks of its candidates return,
    invokes A's callback exactly once. *)
Theorem registerAutomation_delivers calls mid heap heap' A event w :
  getCompatibleTriggers (Automation.builtTriggers (heap' A))
  = getCompatibleTriggers (Automation.builtTriggers (heap A)) →
  A ∉ subscribedAutomations (run calls new_Service) →
  Forall (λ call, call_automation call ≠ A) mid →
  this w = run mid (after (registerAutomation heap A) (run calls new_Service)) →
  HubitatDeviceEvent.eventType event = HUBITAT_DEVICE_EVENT_TYPE →
  matchEvent (heap' A) event = true →
  (∀ a, a ∈ candidates event (this w) →
        Automation.handleEvent (heap' a) event = Returns) →
  (handleEvent heap' event w).1 = Normal ()
  ∧ times A (notified (handleEvent heap' event) w) = 1.
Proof.
  intros Hsame Hnew Hmid Hw Hmarker Hmatch Hreturn.
  pose proof (dispatch_all_return heap' event _ (subscribedAutomations (this w)) Hreturn)
    as Hok.
  split.
  { rewrite handleEvent_dispatch by done. unfold completion_of. simpl. by rewrite Hok. }
  assert (A ∈ candidates event (this w)) as Hcandidate.
  { apply matchEvent_loop_true in Hmatch as (t & Ht & Hm). rewrite Hsame in Ht.
    apply (filed_covering_candidate A
             (getCompatibleTriggers (Automation.builtTriggers (heap A))) t); [|done..].
    rewrite Hw. apply run_other_filed_covering; [done|].
    by apply registerAutomation_filed_covering. }
  assert (A ∈ subscribedAutomations (this w)) as Hsubscribed.
  { apply candidates_indexed in Hcandidate. rewrite Hw in *.
    change (after (registerAutomation heap A) (run calls new_Service))
      with (run [CallRegister heap A] (run calls new_Service)) in *.
    rewrite <- !run_app in *. by apply run_indexed_subseteq. }
  rewrite notified_handleEvent by done.
  apply times_NoDup_elem_of; [apply dispatch_NoDup|].
  by apply dispatch_complete.
Qed.

(** X14. In a state the registry can reach, an automation that is filed in
    any bucket cannot be registered: [registerAutomation] throws the
    already-registered error and changes nothing. *)
Theorem registerAutomation_indexed_rejected calls heap a w :
  this w = run calls new_Service →
  a ∈ indexed (this w) →
  registerAutomation heap a w = (Thrown (already_registered_message (heap a)), w).
Proof.
  intros Hw Hin. apply registerAutomation_known.
  rewrite Hw in *. by apply run_indexed_subseteq.
Qed.

(** X16. Unregistering goes by the triggers the automation has at that moment:
    a bucket that these triggers do not describe keeps the automation, and the
    automation then stays in the subscribed set. *)
Theorem unregisterAutomation_stale heap a s :
  let s' := after (unregisterAutomation heap a) s in
  let triggers := getCompatibleTriggers (Automation.builtTriggers (heap a)) in
  (a ∈ subscriptionsOfAllEvents s → ¬ describes_all triggers →
   a ∈ subscriptionsOfAllEvents s' ∧ a ∈ subscribedAutomations s')
  ∧ (∀ k, a ∈ subscribersForDevice k s → ¬ describes_device triggers k →
          a ∈ subscribersForDevice k s' ∧ a ∈ subscribedAutomations s')
  ∧ (∀ n, a ∈ subscribersForAttribute n s → ¬ describes_attribute triggers n →
          a ∈ subscribersForAttribute n s' ∧ a ∈ subscribedAutomations s').
Proof.
  intros s' triggers. unfold s', after.
  set (w := {| this := s; invoked := []; console := [] |}).
  destruct (unregisterAutomation_unregistered heap a w)
    as (_ & _ & _ & (s1 & (Hall & Hdev & Hattr & _) & Heq1 & Heq2 & Heq3) & Hsub).
  rewrite Hsub. setoid_rewrite elem_of_indexed.
  unfold subscribersForDevice, subscribersForAttribute in *.
  rewrite Heq1, Heq2, Heq3.
  setoid_rewrite Hall. setoid_rewrite Hdev. setoid_rewrite Hattr.
  fold triggers. simpl. naive_solver.
Qed.

(** X17. An automation none of whose trigger definitions has the device-event
    type is never filed: when it is not subscribed, [registerAutomation]
    returns and leaves the service and the logs exactly as they were, and so
    does a second registration. *)
Theorem registerAutomation_no_device_trigger heap automation w :
  (∀ trigger, trigger ∈ Automation.builtTriggers (heap automation) →
              TriggerDefinition.triggerType trigger ≠ HUBITAT_DEVICE_EVENT_TYPE) →
  automation ∉ subscribedAutomations (this w) →
  registerAutomation heap automation w = (Normal (), w)
  ∧ registerAutomation heap automation (registerAutomation heap automation w).2
    = (Normal (), w).
Proof.
  intros Hnone Hnew.
  assert (registerAutomation heap automation w = (Normal (), w)) as Hfirst.
  { unfold registerAutomation, bind, get_this.
    rewrite bool_decide_eq_false_2 by done.
    by rewrite getCompatibleTriggers_none. }
  split; [done|]. by rewrite Hfirst.
Qed.

End Service.

(** * The properties at the sample data *)

Local Abbreviation marker := sample_marker.
Local Abbreviation heap_ok := (sample_heap sample_marker Returns).
Local Abbreviation heap_boom := (sample_heap sample_marker (Throws "boom")).
Local Abbreviation event5 := (sample_event sample_marker).

(** An automation whose only trigger is a timer trigger, though it restricts
    neither devices nor attributes, does not match the event of device 5;
    automation 2 matches it through its device trigger. *)
Lemma matchEvent_semantics_witness :
  let timer := {| TriggerDefinition.triggerType := "timer";
                  TriggerDefinition.devices := [];
                  TriggerDefinition.attributes := [] |} in
  let timed := {| Automation.name := "T";
                  Automation.builtTriggers := [timer];
                  Automation.handleEvent := λ _, Returns |} in
  (∀ trigger, trigger ∈ Automation.builtTriggers timed →
              TriggerDefinition.triggerType trigger ≠ marker)
  ∧ matchEvent marker timed event5 = false
  ∧ trigger_device marker ∈ Automation.builtTriggers (heap_ok 2%positive)
  ∧ TriggerDefinition.triggerType (trigger_device marker) = marker
  ∧ spec_trigger_matches (trigger_device marker) event5
  ∧ matchEvent marker (heap_ok 2%positive) event5 = true.
Proof.
  intros timer timed.
  assert (∀ trigger, trigger ∈ Automation.builtTriggers timed →
                     TriggerDefinition.triggerType trigger ≠ marker) as Hnone.
  { intros trigger Hin. apply list_elem_of_singleton in Hin. subst trigger.
    discriminate. }
  assert (trigger_device marker ∈ Automation.builtTriggers (heap_ok 2%positive))
    as Hin by (apply list_elem_of_singleton; reflexivity).
  assert (spec_trigger_matches (trigger_device marker) event5) as Hmatches.
  { right. split; [discriminate|]. split; [|left; reflexivity].
    apply list_elem_of_singleton. reflexivity. }
  split; [exact Hnone|]. split.
  - apply (matchEvent_semantics marker timed event5). exact Hnone.
  - split; [exact Hin|]. split; [reflexivity|]. split; [exact Hmatches|].
    apply (matchEvent_semantics marker (heap_ok 2%positive) event5).
    exists (trigger_device marker). split; [exact Hin|]. split; [reflexivity|].
    exact Hmatches.
Defined.

(** An unknown tag evaluates to false; [is on] holds of a new value [on]. *)
Lemma matchFilter_semantics_witness :
  ("equals" ∉ ["changes"; "is"; "is-not"; "was"; "was-not"])
  ∧ matchFilter {| ChangeFilter.name := "equals"; ChangeFilter.value := Some "on" |}
                event5 = false
  ∧ (matchFilter {| ChangeFilter.name := "is"; ChangeFilter.value := Some "on" |}
                 event5 = true
     ↔ HubitatDeviceEvent.newValue event5 = "on").
Proof.
  assert ("equals" ∉ ["changes"; "is"; "is-not"; "was"; "was-not"]) as Htag
    by compute_done.
  split; [exact Htag|]. split.
  - apply (matchFilter_semantics event5). exact Htag.
  - apply (matchFilter_semantics event5).
Defined.

(** Registering automation 1 a second time is rejected. *)
Lemma registerAutomation_twice_rejected_witness :
  let w := world_with (run marker [CallRegister heap_ok 1%positive] new_Service) in
  1%positive ∈ subscribedAutomations (this w)
  ∧ registerAutomation marker heap_ok 1%positive w
    = (Thrown (already_registered_message (heap_ok 1%positive)), w).
Proof.
  assert (1%positive ∈ subscribedAutomations
            (this (world_with (run marker [CallRegister heap_ok 1%positive] new_Service))))
    as Hknown by compute_done.
  split; [exact Hknown|].
  apply (registerAutomation_twice_rejected marker heap_ok 1%positive _ Hknown).
Defined.

(** Automation 5, without triggers, can be registered twice in a row. *)
Lemma registerAutomation_without_device_triggers_witness :
  let w := world_with new_Service in
  getCompatibleTriggers marker (Automation.builtTriggers (heap_ok 5%positive)) = []
  ∧ (5%positive ∉ subscribedAutomations (this w))
  ∧ registerAutomation marker heap_ok 5%positive w = (Normal (), w)
  ∧ registerAutomation marker heap_ok 5%positive
      (registerAutomation marker heap_ok 5%positive w).2 = (Normal (), w).
Proof.
  assert (5%positive ∉ subscribedAutomations (this (world_with new_Service))) as Hnew
    by compute_done.
  split; [reflexivity|]. split; [exact Hnew|].
  destruct (registerAutomation_without_device_triggers marker heap_ok 5%positive
              (world_with new_Service) eq_refl) as [_ Hcalls].
  destruct (Hcalls Hnew) as (Hfirst & _ & Hsecond).
  split; [exact Hfirst|exact Hsecond].
Defined.

(** A timer event is ignored. *)
Lemma handleEvent_irrelevant_witness :
  let event :=
    {| HubitatDeviceEvent.eventType := "timer";
       HubitatDeviceEvent.deviceId := 5;
       HubitatDeviceEvent.attributeName := "switch";
       HubitatDeviceEvent.newValue := "on";
       HubitatDeviceEvent.previousValue := "off" |} in
  let w := world_with (run marker [CallRegister heap_ok 1%positive] new_Service) in
  HubitatDeviceEvent.eventType event ≠ marker
  ∧ handleEvent marker sample_stringify heap_ok event w = (Normal (), w)
  ∧ notified (handleEvent marker sample_stringify heap_ok event) w = [].
Proof.
  intros event w.
  assert (HubitatDeviceEvent.eventType event ≠ marker) as Hother by discriminate.
  split; [exact Hother|].
  apply (handleEvent_irrelevant marker sample_stringify heap_ok event w Hother).
Defined.

(** Automations 1, 2 and 3 registered in that order. *)
Local Abbreviation three_registered heap :=
  (run marker [CallRegister heap 1%positive; CallRegister heap 2%positive;
               CallRegister heap 3%positive] new_Service).

(** Automation 4 is filed under catch-all and under device 5; it is invoked
    once. *)
Lemma handleEvent_exactly_once_witness :
  let w := world_with (run marker [CallRegister heap_ok 4%positive;
                                   CallRegister heap_ok 1%positive;
                                   CallRegister heap_ok 3%positive] new_Service) in
  HubitatDeviceEvent.eventType event5 = marker
  ∧ (∀ a, a ∈ candidates event5 (this w) →
          Automation.handleEvent (heap_ok a) event5 = Returns)
  ∧ candidates event5 (this w) = [4%positive; 1%positive; 4%positive; 3%positive]
  ∧ (∀ a, (times a (notified (handleEvent marker sample_stringify heap_ok event5) w)
           ≤ 1)%nat)
  ∧ (handleEvent marker sample_stringify heap_ok event5 w).1 = Normal ()
  ∧ times 4%positive (notified (handleEvent marker sample_stringify heap_ok event5) w)
    = 1.
Proof.
  intros w.
  assert (∀ a, a ∈ candidates event5 (this w) →
               Automation.handleEvent (heap_ok a) event5 = Returns) as Hreturn.
  { intros a _. unfold sample_heap. by repeat case_bool_decide. }
  destruct (handleEvent_exactly_once marker sample_stringify heap_ok event5 w eq_refl)
    as [Hmost Hall].
  destruct (Hall Hreturn) as [Hnormal Honce].
  split; [reflexivity|]. split; [exact Hreturn|]. split; [reflexivity|].
  split; [exact Hmost|]. split; [exact Hnormal|].
  apply Honce; [compute_done|reflexivity|compute_done].
Defined.

(** With 1, 2 and 3 registered and the callback of 2 throwing, 3 is not
    reached. *)
Lemma handleEvent_failure_short_circuit_witness :
  let w := world_with (three_registered heap_boom) in
  candidates event5 (this w) = [1%positive; 2%positive; 3%positive]
  ∧ handleEvent marker sample_stringify heap_boom event5 w
    = (Thrown ("The automation " +:+ dquote +:+ "B" +:+ dquote
                 +:+ " failed to handle event: " +:+ sample_stringify event5),
       {| this := this w;
          invoked := [(1%positive, event5); (2%positive, event5)];
          console := [callback_failed_log (heap_boom 2%positive) "boom"] |})
  ∧ notified (handleEvent marker sample_stringify heap_boom event5) w
    = [1%positive; 2%positive]
  ∧ 3%positive ∉ notified (handleEvent marker sample_stringify heap_boom event5) w.
Proof.
  intros w. split; [reflexivity|].
  apply (handleEvent_failure_short_circuit marker sample_stringify
           [CallRegister heap_boom 1%positive; CallRegister heap_boom 2%positive;
            CallRegister heap_boom 3%positive]
           heap_boom event5 w 1%positive 2%positive 3%positive "boom").
  - reflexivity.
  - reflexivity.
  - reflexivity.
  - compute_done.
  - reflexivity.
  - reflexivity.
  - reflexivity.
  - reflexivity.
  - reflexivity.
Defined.

(** The three phases for 1, 2 and 3 registered. *)
Lemma handleEvent_notification_order_witness :
  let w := world_with (three_registered heap_ok) in
  HubitatDeviceEvent.eventType event5 = marker
  ∧ ∃ t1 t2 t3 : list AutomationRef,
      notified (handleEvent marker sample_stringify heap_ok event5) w
      = (t1 ++ t2 ++ t3)%list
      ∧ t1 `sublist_of` subscriptionsOfAllEvents (this w)
      ∧ t2 `sublist_of` subscribersForDevice (HubitatDeviceEvent.deviceId event5) (this w)
      ∧ t3 `sublist_of`
           subscribersForAttribute (HubitatDeviceEvent.attributeName event5) (this w)
      ∧ (∀ a, a ∈ t2 → a ∉ subscriptionsOfAllEvents (this w))
      ∧ (∀ a, a ∈ t3 →
              (a ∉ subscriptionsOfAllEvents (this w))
              ∧ (a ∉ subscribersForDevice (HubitatDeviceEvent.deviceId event5) (this w))).
Proof.
  intros w. split; [reflexivity|].
  apply (handleEvent_notification_order marker sample_stringify heap_ok event5 w).
  reflexivity.
Defined.

(** The example of the specification: A subscribed to everything, B to device
    5, C to the attribute [switch]; an event of device 5 and attribute
    [switch] reaches A, then B, then C. *)
Example catch_all_precedence :
  notified (handleEvent marker sample_stringify heap_ok event5)
           (world_with (three_registered heap_ok))
  = [1%positive; 2%positive; 3%positive].
Proof. vm_compute. reflexivity. Qed.

(** C6, as stated, fails: automation 4 is filed under catch-all and under
    device 5 and automation 1 under catch-all only; registered in that order
    they are notified in that order, so the catch-all subscriber 1 receives
    the event after the device subscriber 4. *)
Lemma notification_order_counterexample :
  let w := world_with (run marker [CallRegister heap_ok 4%positive;
                                   CallRegister heap_ok 1%positive] new_Service) in
  notified (handleEvent marker sample_stringify heap_ok event5) w
  = [4%positive; 1%positive]
  ∧ ¬ bucketwise_order marker sample_stringify heap_ok event5 w.
Proof.
  intros w.
  assert (notified (handleEvent marker sample_stringify heap_ok event5) w
          = [4%positive; 1%positive]) as Hlog by (vm_compute; reflexivity).
  split; [exact Hlog|].
  unfold bucketwise_order. rewrite Hlog. intros [Horder _].
  destruct (Horder 1%positive 4%positive) as (i & j & Hi & Hj & Hlt);
    [compute_done..|].
  destruct i as [|[|i]]; destruct j as [|[|j]]; simpl in *; try discriminate; lia.
Qed.

(** Automation 3 registered, automation 2 registered, automation 3
    unregistered. *)
Lemma unregisterAutomation_complete_witness :
  let s1 := after (registerAutomation marker heap_ok 3%positive) new_Service in
  let s2 := after (unregisterAutomation marker heap_ok 3%positive)
                  (run marker [CallRegister heap_ok 2%positive] s1) in
  getCompatibleTriggers marker (Automation.builtTriggers (heap_ok 3%positive))
  = [trigger_switch marker]
  ∧ 3%positive ∈ subscribedAutomations s1
  ∧ (3%positive ∉ subscribedAutomations s2)
  ∧ ∀ heap'' event w,
      this w = s2 →
      3%positive ∉ notified (handleEvent marker sample_stringify heap'' event) w.
Proof.
  intros s1 s2. split; [reflexivity|].
  apply (unregisterAutomation_complete marker sample_stringify
           [] [CallRegister heap_ok 2%positive] heap_ok heap_ok 3%positive
           (trigger_switch marker)).
  - reflexivity.
  - reflexivity.
  - compute_done.
  - repeat constructor. discriminate.
Defined.

(** * The further properties at the sample data *)

(** A timer trigger between the two triggers of automation 4 changes
    nothing. *)
Lemma matchEvent_other_trigger_type_witness :
  let timer := {| TriggerDefinition.triggerType := "timer";
                  TriggerDefinition.devices := [];
                  TriggerDefinition.attributes := [] |} in
  TriggerDefinition.triggerType timer ≠ marker
  ∧ getCompatibleTriggers marker ([trigger_device marker] ++ timer :: [trigger_switch marker])
    = getCompatibleTriggers marker ([trigger_device marker] ++ [trigger_switch marker])
  ∧ matchEvent marker
      {| Automation.name := "D";
         Automation.builtTriggers :=
           [trigger_device marker] ++ timer :: [trigger_switch marker];
         Automation.handleEvent := λ _, Returns |} event5
    = matchEvent marker
        {| Automation.name := "D";
           Automation.builtTriggers := [trigger_device marker] ++ [trigger_switch marker];
           Automation.handleEvent := λ _, Returns |} event5.
Proof.
  intros timer.
  assert (TriggerDefinition.triggerType timer ≠ marker) as Hother by discriminate.
  split; [exact Hother|].
  apply (matchEvent_other_trigger_type marker "D" (λ _, Returns)
           [trigger_device marker] timer [trigger_switch marker] event5 Hother).
Defined.

(** The two triggers of automation 4 in either order. *)
Lemma matchEvent_Permutation_witness :
  let swapped := {| Automation.name := "D";
                    Automation.builtTriggers := [trigger_device marker; trigger_all marker];
                    Automation.handleEvent := λ _, Returns |} in
  Automation.builtTriggers (heap_ok 4%positive) ≡ₚ Automation.builtTriggers swapped
  ∧ matchEvent marker (heap_ok 4%positive) event5 = matchEvent marker swapped event5.
Proof.
  intros swapped.
  assert (Automation.builtTriggers (heap_ok 4%positive)
          ≡ₚ Automation.builtTriggers swapped) as Hperm by apply perm_swap.
  split; [exact Hperm|].
  apply (matchEvent_Permutation marker (heap_ok 4%positive) swapped event5 Hperm).
Defined.

(** One filter for another attribute, one for the switch without change
    groups. *)
Lemma matchAttributes_nothing_to_match_witness :
  let trigger :=
    {| TriggerDefinition.triggerType := marker;
       TriggerDefinition.devices := [];
       TriggerDefinition.attributes :=
         [ {| AttributeFilter.attributeNames := ["level"];
              AttributeFilter.changeGroups := [ {| ChangeGroup.filters := [] |} ] |};
           {| AttributeFilter.attributeNames := ["switch"];
              AttributeFilter.changeGroups := [] |} ] |} in
  matchAttributes trigger event5 = false.
Proof.
  intros trigger.
  apply (matchAttributes_nothing_to_match trigger event5).
  intros af [->|[->|Hnone%elem_of_nil]%elem_of_cons]%elem_of_cons.
  - left. compute_done.
  - right. reflexivity.
  - destruct Hnone.
Defined.

(** Automation 2 is notified of the event of device 5. *)
Lemma handleEvent_sound_witness :
  let w := world_with (three_registered heap_ok) in
  2%positive ∈ notified (handleEvent marker sample_stringify heap_ok event5) w
  ∧ HubitatDeviceEvent.eventType event5 = marker
  ∧ 2%positive ∈ subscribedAutomations (this w)
  ∧ 2%positive ∈ candidates event5 (this w)
  ∧ matchEvent marker (heap_ok 2%positive) event5 = true.
Proof.
  intros w.
  assert (2%positive ∈ notified (handleEvent marker sample_stringify heap_ok event5) w)
    as Hnotified by compute_done.
  split; [exact Hnotified|].
  apply (handleEvent_sound marker sample_stringify heap_ok event5 w 2%positive Hnotified).
Defined.

(** An event dispatched on the new service. *)
Lemma handleEvent_nobody_witness :
  handleEvent marker sample_stringify heap_ok event5 (world_with new_Service)
  = (Normal (), world_with new_Service).
Proof.
  apply (handleEvent_nobody marker sample_stringify heap_ok event5
           (world_with new_Service)); reflexivity.
Defined.

(** Automation 2 stays in the bucket of device 5 while automation 1 comes and
    goes. *)
Lemma run_members_of_others_witness :
  let calls := [CallRegister heap_ok 1%positive; CallUnregister heap_ok 1%positive] in
  let s := run marker [CallRegister heap_ok 2%positive] new_Service in
  Forall (λ call, call_automation call ≠ 2%positive) calls
  ∧ (2%positive ∈ subscribersForDevice 5 (run marker calls s)
     ↔ 2%positive ∈ subscribersForDevice 5 s).
Proof.
  intros calls s.
  assert (Forall (λ call, call_automation call ≠ 2%positive) calls) as Hcalls
    by (repeat constructor; discriminate).
  split; [exact Hcalls|].
  apply (run_members_of_others marker calls 2%positive s Hcalls).
Defined.

(** Automation 3 registered and unregistered beside automations 1 and 2. *)
Lemma register_unregister_round_trip_witness :
  let calls := [CallRegister heap_ok 1%positive; CallRegister heap_ok 2%positive] in
  let s0 := run marker calls new_Service in
  let s2 := after (unregisterAutomation marker heap_ok 3%positive)
                  (after (registerAutomation marker heap_ok 3%positive) s0) in
  (3%positive ∉ subscribedAutomations s0)
  ∧ same_members s0 s2
  ∧ subscribedAutomations s2 = indexed s0.
Proof.
  intros calls s0 s2.
  assert (3%positive ∉ subscribedAutomations s0) as Hnew by compute_done.
  split; [exact Hnew|].
  apply (register_unregister_round_trip marker calls heap_ok heap_ok 3%positive
           eq_refl Hnew).
Defined.

(** Automation 3 registered, unregistered and registered again, now with the
    triggers of automation 4. *)
Lemma unregister_then_register_witness :
  let later : Heap := λ _, heap_ok 4%positive in
  let w := world_with
             (after (unregisterAutomation marker heap_ok 3%positive)
                (run marker [CallRegister heap_ok 2%positive]
                   (after (registerAutomation marker heap_ok 3%positive)
                      (run marker [] new_Service)))) in
  (registerAutomation marker later 3%positive w).1 = Normal ().
Proof.
  intros later w.
  apply (unregister_then_register marker
           [] [CallRegister heap_ok 2%positive] heap_ok heap_ok later 3%positive w).
  - reflexivity.
  - compute_done.
  - repeat constructor. discriminate.
  - reflexivity.
Defined.

(** Automation 3 registered before automation 1; the switch of device 5 turns
    on. *)
Lemma registerAutomation_delivers_witness :
  let w := world_with
             (run marker [CallRegister heap_ok 1%positive]
                (after (registerAutomation marker heap_ok 3%positive)
                   (run marker [] new_Service))) in
  matchEvent marker (heap_ok 3%positive) event5 = true
  ∧ (handleEvent marker sample_stringify heap_ok event5 w).1 = Normal ()
  ∧ times 3%positive (notified (handleEvent marker sample_stringify heap_ok event5) w)
    = 1.
Proof.
  intros w. split; [reflexivity|].
  apply (registerAutomation_delivers marker sample_stringify
           [] [CallRegister heap_ok 1%positive] heap_ok heap_ok 3%positive event5 w).
  - reflexivity.
  - compute_done.
  - repeat constructor. discriminate.
  - reflexivity.
  - reflexivity.
  - reflexivity.
  - intros a _. unfold sample_heap. by repeat case_bool_decide.
Defined.

(** Automation 2 is in the bucket of device 5 and is not registered again. *)
Lemma registerAutomation_indexed_rejected_witness :
  let w := world_with (run marker [CallRegister heap_ok 2%positive] new_Service) in
  2%positive ∈ indexed (this w)
  ∧ registerAutomation marker heap_ok 2%positive w
    = (Thrown (already_registered_message (heap_ok 2%positive)), w).
Proof.
  intros w.
  assert (2%positive ∈ indexed (this w)) as Hin by compute_done.
  split; [exact Hin|].
  apply (registerAutomation_indexed_rejected marker
           [CallRegister heap_ok 2%positive] heap_ok 2%positive w eq_refl Hin).
Defined.

(** Automations 1 and 3 registered, automation 1 unregistered. *)
Lemma run_union_invariant_witness :
  let calls := [CallRegister heap_ok 1%positive; CallRegister heap_ok 3%positive;
                CallUnregister heap_ok 1%positive] in
  Forall (well_named marker) calls
  ∧ subscribedAutomations (run marker calls new_Service)
    = indexed (run marker calls new_Service).
Proof.
  intros calls.
  assert (Forall (well_named marker) calls) as Hnamed.
  { apply Forall_cons. split.
    - change (Forall (names_an_attribute) [trigger_all marker]).
      apply Forall_singleton. intros _ Hattributes. by destruct Hattributes.
    - apply Forall_cons. split; [|by apply Forall_singleton].
      change (Forall (names_an_attribute) [trigger_switch marker]).
      apply Forall_singleton. intros _ _. compute_done. }
  split; [exact Hnamed|].
  apply (run_union_invariant marker calls Hnamed).
Defined.

(** Automation 2 registered for device 5 and unregistered when its triggers
    have become those of automation 3: it stays in the bucket of device 5. *)
Lemma unregisterAutomation_stale_witness :
  let later : Heap := λ _, heap_ok 3%positive in
  let s := run marker [CallRegister heap_ok 2%positive] new_Service in
  let s' := after (unregisterAutomation marker later 2%positive) s in
  2%positive ∈ subscribersForDevice 5 s
  ∧ 2%positive ∈ subscribersForDevice 5 s'
  ∧ 2%positive ∈ subscribedAutomations s'.
Proof.
  intros later s s'.
  assert (2%positive ∈ subscribersForDevice 5 s) as Hfiled by compute_done.
  split; [exact Hfiled|].
  apply (unregisterAutomation_stale marker later 2%positive s); [exact Hfiled|].
  intros (t & Ht & Hk). apply list_elem_of_singleton in Ht. subst t.
  by apply elem_of_nil in Hk.
Defined.

(** An automation with a timer trigger only, registered twice beside
    automation 1. *)
Lemma registerAutomation_no_device_trigger_witness :
  let timer := {| TriggerDefinition.triggerType := "timer";
                  TriggerDefinition.devices := [5%Z];
                  TriggerDefinition.attributes := [] |} in
  let timed : Heap := λ _, {| Automation.name := "T";
                              Automation.builtTriggers := [timer];
                              Automation.handleEvent := λ _, Returns |} in
  let w := world_with (run marker [CallRegister heap_ok 1%positive] new_Service) in
  (∀ trigger, trigger ∈ Automation.builtTriggers (timed 7%positive) →
              TriggerDefinition.triggerType trigger ≠ marker)
  ∧ (7%positive ∉ subscribedAutomations (this w))
  ∧ registerAutomation marker timed 7%positive w = (Normal (), w)
  ∧ registerAutomation marker timed 7%positive
      (registerAutomation marker timed 7%positive w).2 = (Normal (), w).
Proof.
  intros timer timed w.
  assert (∀ trigger, trigger ∈ Automation.builtTriggers (timed 7%positive) →
                     TriggerDefinition.triggerType trigger ≠ marker) as Hnone.
  { intros trigger Hin. apply list_elem_of_singleton in Hin. subst trigger.
    discriminate. }
  assert (7%positive ∉ subscribedAutomations (this w)) as Hnew by compute_done.
  split; [exact Hnone|]. split; [exact Hnew|].
  apply (registerAutomation_no_device_trigger marker timed 7%positive w Hnone Hnew).
Defined.
